(** * ai-meme-creator: the ownership-checked data-access layer

    A shallow embedding of [src/db/tables.ts] (the three tables) and of
    [src/src/actions/index.ts] (the access-control helpers and the eight
    actions of [server]), followed by the properties of the specification.

    The handlers are [async] functions that talk to a relational store
    through the query builder of [astro:db].  They are embedded in a small
    state-and-exception monad [Task]: the state is the store together with
    a journal of the statements issued so far, [await] is the bind of the
    monad, and [throw] leaves the state as it is (there is no transaction
    around a handler). *)

From Stdlib Require Import String List Bool ZArith Arith Lia.
Import ListNotations.
Open Scope string_scope.

Set Implicit Arguments.

(** ** JavaScript values used by the handlers *)

(** Truthiness of a string: the empty string is the only falsy one. *)
Definition truthy (s : string) : bool := negb (s =? "").

(** Truthiness of a [string | null | undefined]. *)
Definition truthy_opt (o : option string) : bool :=
  match o with
  | Some s => truthy s
  | None => false
  end.

(** [a ?? b] *)
Definition nullish {A : Type} (a : option A) (b : A) : A :=
  match a with
  | Some x => x
  | None => b
  end.

(** [const [x] = xs] : the first element, or [undefined]. *)
Definition first {A : Type} (xs : list A) : option A := hd_error xs.

(** ** The tables of [src/db/tables.ts]

    A column declared [optional: true] is nullable and holds an [option];
    every other column is NOT NULL.  Dates are milliseconds since the
    epoch. *)

Definition Date := Z.

Module MemeTemplates.
Record row := {
    id : string;
    userId : option string;
    name : string;
    description : option string;
    imageUrl : option string;
    layoutType : option string;
    isSystem : bool;
    createdAt : Date;
    updatedAt : Date
  }.
End MemeTemplates.

Module MemeIdeas.
Record row := {
    id : string;
    userId : string;
    templateId : option string;
    context : option string;
    topic : option string;
    createdAt : Date
  }.
End MemeIdeas.

Module MemeCaptions.
Record row := {
    id : string;
    memeIdeaId : string;
    variantLabel : option string;
    topText : option string;
    bottomText : option string;
    extraText : option string;
    isFavorite : bool;
    isUsed : bool;
    createdAt : Date
  }.
End MemeCaptions.

(** The contents of the store: one list of rows per table, in insertion
    order. *)
Record Db := {
  memeTemplates : list MemeTemplates.row;
  memeIdeas : list MemeIdeas.row;
  memeCaptions : list MemeCaptions.row
}.

Inductive TableName := TMemeTemplates | TMemeIdeas | TMemeCaptions.

(** A table handle: where its rows live in the store, which column is its
    primary key ([column.text({ primaryKey: true })]), and whether the
    columns declared with [references] point to existing rows (a NULL
    reference points nowhere and is fine). *)
Record Table (R : Type) := {
  tname : TableName;
  rows : Db -> list R;
  put : list R -> Db -> Db;
  pkey : R -> string;
  references : R -> Db -> bool
}.

(** Whether some row of a list carries the id. *)
Definition has_id (k : string) (ids : list string) : bool :=
  existsb (String.eqb k) ids.

Definition MemeTemplatesT : Table MemeTemplates.row := {|
  tname := TMemeTemplates;
  rows := memeTemplates;
  put := fun rs d => {| memeTemplates := rs; memeIdeas := memeIdeas d;
                        memeCaptions := memeCaptions d |};
  pkey := MemeTemplates.id;
  references := fun _ _ => true
|}.

Definition MemeIdeasT : Table MemeIdeas.row := {|
  tname := TMemeIdeas;
  rows := memeIdeas;
  put := fun rs d => {| memeTemplates := memeTemplates d; memeIdeas := rs;
                        memeCaptions := memeCaptions d |};
  pkey := MemeIdeas.id;
  (* templateId references MemeTemplates.id *)
  references := fun r d =>
    match MemeIdeas.templateId r with
    | Some t => has_id t (map MemeTemplates.id (memeTemplates d))
    | None => true
    end
|}.

Definition MemeCaptionsT : Table MemeCaptions.row := {|
  tname := TMemeCaptions;
  rows := memeCaptions;
  put := fun rs d => {| memeTemplates := memeTemplates d; memeIdeas := memeIdeas d;
                        memeCaptions := rs |};
  pkey := MemeCaptions.id;
  (* memeIdeaId references MemeIdeas.id *)
  references := fun r d =>
    has_id (MemeCaptions.memeIdeaId r) (map MemeIdeas.id (memeIdeas d))
|}.

(** ** SQL conditions

    [eq], [and] and [or] of [astro:db] are the operators of the query
    builder: [eq(col, v)] is rendered as [col = ?] with [v] bound, [and]
    and [or] as AND and OR.  A WHERE clause keeps the rows on which the
    condition is TRUE, and SQL conditions are three-valued: a comparison
    with NULL on either side is UNKNOWN, not TRUE.  The documentation of
    [eq] says as much (two NULL values are not equal; testing for NULL is
    the job of the separate operator [isNull], which the handlers do not
    use). *)

Inductive tri := TTrue | TFalse | TUnknown.

Definition holds (t : tri) : bool :=
  match t with
  | TTrue => true
  | _ => false
  end.

Definition of_bool (b : bool) : tri := if b then TTrue else TFalse.

Definition and3 (a b : tri) : tri :=
  match a, b with
  | TFalse, _ | _, TFalse => TFalse
  | TTrue, TTrue => TTrue
  | _, _ => TUnknown
  end.

Definition or3 (a b : tri) : tri :=
  match a, b with
  | TTrue, _ | _, TTrue => TTrue
  | TFalse, TFalse => TFalse
  | _, _ => TUnknown
  end.

(** A condition over the rows of one table. *)
Definition Condition (R : Type) := R -> tri.

(** [eq(col, v)] on a text column; [None] is NULL. *)
Definition eq_text {R : Type} (col : R -> option string) (v : option string)
  : Condition R :=
  fun r =>
    match col r, v with
    | Some a, Some b => of_bool (a =? b)
    | _, _ => TUnknown
    end.

(** [eq(col, v)] on a boolean column. *)
Definition eq_bool {R : Type} (col : R -> option bool) (v : option bool)
  : Condition R :=
  fun r =>
    match col r, v with
    | Some a, Some b => of_bool (Bool.eqb a b)
    | _, _ => TUnknown
    end.

(** A NOT NULL column read as an SQL value. *)
Definition notnull {R A : Type} (col : R -> A) : R -> option A :=
  fun r => Some (col r).

Definition or_ {R : Type} (a b : Condition R) : Condition R :=
  fun r => or3 (a r) (b r).

(** [and(...filters)] *)
Definition and_ {R : Type} (filters : list (Condition R)) : Condition R :=
  fun r => fold_right (fun c acc => and3 (c r) acc) TTrue filters.

(** The rows a WHERE clause selects. *)
Definition matching {R : Type} (w : Condition R) (rs : list R) : list R :=
  filter (fun r => holds (w r)) rs.

(** ** Errors *)

Inductive ActionErrorCode :=
  BAD_REQUEST | UNAUTHORIZED | FORBIDDEN | NOT_FOUND | INTERNAL_SERVER_ERROR.

(** One issue of a failed schema validation: the path of the offending
    field (empty for a refinement of the whole object) and the custom
    message when the schema gives one. *)
Record ZodIssue := {
  path : list string;
  custom_message : option string
}.

Inductive Thrown :=
| ActionError (code : ActionErrorCode) (message : string)
    (* thrown by the handlers themselves *)
| ActionInputError (issues : list ZodIssue)
    (* thrown by [defineAction] when the input schema rejects the input *)
| ConstraintViolation (t : TableName).
    (* raised by the store on a duplicate primary key or a dangling
       reference *)

Definition code_of (e : Thrown) : ActionErrorCode :=
  match e with
  | ActionError c _ => c
  | ActionInputError _ => BAD_REQUEST
  | ConstraintViolation _ => INTERNAL_SERVER_ERROR
  end.

(** ** The monad of the handlers *)

Inductive Statement :=
| SELECT (t : TableName)
| INSERT (t : TableName)
| UPDATE (t : TableName)
| DELETE (t : TableName).

(** The store and the journal of the statements sent to it, oldest first. *)
Record World := {
  store : Db;
  journal : list Statement
}.

Definition Task (A : Type) := World -> (Thrown + A) * World.

Definition ret {A : Type} (a : A) : Task A := fun w => (inr a, w).

Definition throw {A : Type} (e : Thrown) : Task A := fun w => (inl e, w).

Definition bind {A B : Type} (m : Task A) (k : A -> Task B) : Task B :=
  fun w =>
    match m w with
    | (inl e, w') => (inl e, w')
    | (inr a, w') => k a w'
    end.

Declare Scope task_scope.
Delimit Scope task_scope with task.
Notation "x <- m ;; k" := (bind m (fun x => k))
  (at level 61, m at next level, right associativity) : task_scope.
Notation "m ;;; k" := (bind m (fun _ => k))
  (at level 61, right associativity) : task_scope.
Open Scope task_scope.

Definition issue (st : Statement) (w : World) : list Statement :=
  journal w ++ [st].

(** [db.select().from(T).where(w)] *)
Definition db_select {R : Type} (T : Table R) (w : Condition R) : Task (list R) :=
  fun s =>
    (inr (matching w (rows T (store s))),
     {| store := store s; journal := issue (SELECT (tname T)) s |}).

(** The constraints the store enforces on an insert: the primary key is
    not taken yet and every reference of the row exists. *)
Definition violates {R : Type} (T : Table R) (r : R) (d : Db) : bool :=
  has_id (pkey T r) (map (pkey T) (rows T d)) || negb (references T r d).

(** [db.insert(T).values(r).returning()] *)
Definition db_insert {R : Type} (T : Table R) (r : R) : Task (list R) :=
  fun s =>
    if violates T r (store s)
    then (inl (ConstraintViolation (tname T)),
          {| store := store s; journal := issue (INSERT (tname T)) s |})
    else (inr [r],
          {| store := put T (rows T (store s) ++ [r]) (store s);
             journal := issue (INSERT (tname T)) s |}).

(** [db.update(T).set(f).where(w).returning()] *)
Definition db_update {R : Type} (T : Table R) (f : R -> R) (w : Condition R)
  : Task (list R) :=
  fun s =>
    (inr (map f (matching w (rows T (store s)))),
     {| store := put T (map (fun r => if holds (w r) then f r else r)
                            (rows T (store s))) (store s);
        journal := issue (UPDATE (tname T)) s |}).

Record DeleteResult := { rowsAffected : nat }.

(** [db.delete(T).where(w)] *)
Definition db_delete {R : Type} (T : Table R) (w : Condition R) : Task DeleteResult :=
  fun s =>
    (inr {| rowsAffected := length (matching w (rows T (store s))) |},
     {| store := put T (filter (fun r => negb (holds (w r))) (rows T (store s)))
                       (store s);
        journal := issue (DELETE (tname T)) s |}).

(** ** Request context and runtime *)

(** [App.Locals]: the session the middleware attaches to a request. *)
Module App.
Record User := { id : string }.
Record Locals := { user : option User }.
End App.

Record ActionAPIContext := {
  locals : option App.Locals
}.

(** What a handler reads from its environment besides the store:
    [crypto.randomUUID()] and [new Date()]. *)
Record Runtime := {
  randomUUID : string;
  now : Date
}.

(** The response envelopes. *)
Record Envelope (A : Type) := {
  success : bool;
  data : A
}.

Record Listing (R : Type) := {
  items : list R;
  total : nat
}.

(** ** Input schemas ([astro:schema])

    A schema maps the raw input to the parsed input or to the issues it
    found.  [defineAction] validates before it calls the handler.

    The raw input of an action is a record that already has the shape the
    schema declares: a string where [z.string()] stands, a boolean where
    [z.boolean()] stands, [None] for a field that is left out.  What the
    schemas check beyond the shape is embedded: [min(1)], the refinement of
    the update and the defaults of the listing.  An input of another shape
    (a number for a string, say) is rejected by the real schema with the
    same input error and has no counterpart here. *)

Definition Schema (Raw In : Type) := Raw -> list ZodIssue + In.

(** [z.string().min(1)] on the field [field]. *)
Definition min1 (field s : string) : list ZodIssue :=
  if (1 <=? String.length s)%nat then []
  else [{| path := [field]; custom_message := None |}].

Definition parsed {A : Type} (issues : list ZodIssue) (a : A) : list ZodIssue + A :=
  match issues with
  | [] => inr a
  | _ => inl issues
  end.

Definition defineAction {Raw In Out : Type} (input : Schema Raw In)
    (handler : In -> ActionAPIContext -> Runtime -> Task Out)
  : Raw -> ActionAPIContext -> Runtime -> Task Out :=
  fun raw context rt =>
    match input raw with
    | inl issues => throw (ActionInputError issues)
    | inr i => handler i context rt
    end.

Module CreateTemplate.
Record input := {
    name : string;
    description : option string;
    imageUrl : option string;
    layoutType : option string
  }.
Definition schema : Schema input input :=
    fun i => parsed (min1 "name" (name i)) i.
End CreateTemplate.

Module CreateMemeIdea.
Record input := {
    templateId : option string;
    context : option string;
    topic : option string
  }.
(** Three optional strings and no further check: every input of this shape
    passes. *)
Definition schema : Schema input input := fun i => inr i.
End CreateMemeIdea.

Module CreateMemeCaption.
Record input := {
    memeIdeaId : string;
    variantLabel : option string;
    topText : option string;
    bottomText : option string;
    extraText : option string;
    isFavorite : option bool;
    isUsed : option bool
  }.
Definition schema : Schema input input :=
    fun i => parsed (min1 "memeIdeaId" (memeIdeaId i)) i.
End CreateMemeCaption.

Definition defined {A : Type} (o : option A) : bool :=
  match o with
  | Some _ => true
  | None => false
  end.

Module UpdateMemeCaption.
Record input := {
    id : string;
    memeIdeaId : string;
    variantLabel : option string;
    topText : option string;
    bottomText : option string;
    extraText : option string;
    isFavorite : option bool;
    isUsed : option bool
  }.

  (** The predicate of [.refine]. *)
Definition refinement (i : input) : bool :=
    defined (variantLabel i) || defined (topText i) || defined (bottomText i)
    || defined (extraText i) || defined (isFavorite i) || defined (isUsed i).

Definition refinement_issue : ZodIssue :=
    {| path := [];
       custom_message := Some "At least one field must be provided to update." |}.

Definition schema : Schema input input :=
    fun i =>
      parsed (min1 "id" (id i) ++ min1 "memeIdeaId" (memeIdeaId i)
              ++ (if refinement i then [] else [refinement_issue])) i.
End UpdateMemeCaption.

Module DeleteMemeCaption.
Record input := {
    id : string;
    memeIdeaId : string
  }.
Definition schema : Schema input input :=
    fun i => parsed (min1 "id" (id i) ++ min1 "memeIdeaId" (memeIdeaId i)) i.
End DeleteMemeCaption.

Module ListMemeCaptions.
Record raw := {
    raw_memeIdeaId : string;
    raw_favoritesOnly : option bool;
    raw_usedOnly : option bool
  }.
Record input := {
    memeIdeaId : string;
    favoritesOnly : bool;
    usedOnly : bool
  }.
  (** [z.boolean().default(false)] fills in an absent flag. *)
Definition schema : Schema raw input :=
    fun r =>
      parsed (min1 "memeIdeaId" (raw_memeIdeaId r))
             {| memeIdeaId := raw_memeIdeaId r;
                favoritesOnly := nullish (raw_favoritesOnly r) false;
                usedOnly := nullish (raw_usedOnly r) false |}.
End ListMemeCaptions.

(** ** Access-control helpers *)

Definition requireUser (context : ActionAPIContext) : Task App.User :=
  let user := match locals context with
              | Some l => App.user l
              | None => None
              end in
  match user with
  | None => throw (ActionError UNAUTHORIZED
                     "You must be signed in to perform this action.")
  | Some u => ret u
  end.

(** [a !== b] for a nullable [a] and a string [b]. *)
Definition strict_neq (a : option string) (b : string) : bool :=
  match a with
  | Some x => negb (x =? b)
  | None => true
  end.

Definition ensureTemplateAccessible (templateId userId : string)
  : Task MemeTemplates.row :=
  found <- db_select MemeTemplatesT
             (eq_text (notnull MemeTemplates.id) (Some templateId)) ;;
  match first found with
  | None => throw (ActionError NOT_FOUND "Template not found.")
  | Some template =>
      if truthy_opt (MemeTemplates.userId template)
         && strict_neq (MemeTemplates.userId template) userId
      then throw (ActionError FORBIDDEN
                    "You do not have access to this template.")
      else ret template
  end.

Definition getOwnedIdea (ideaId userId : string) : Task MemeIdeas.row :=
  found <- db_select MemeIdeasT
             (and_ [eq_text (notnull MemeIdeas.id) (Some ideaId);
                    eq_text (notnull MemeIdeas.userId) (Some userId)]) ;;
  match first found with
  | None => throw (ActionError NOT_FOUND "Meme idea not found.")
  | Some idea => ret idea
  end.

(** ** The handlers of [server] *)

Definition createTemplate_handler (input : CreateTemplate.input)
    (context : ActionAPIContext) (rt : Runtime)
  : Task (Envelope (option MemeTemplates.row)) :=
  user <- requireUser context ;;
  let now := now rt in
  inserted <- db_insert MemeTemplatesT
    {| MemeTemplates.id := randomUUID rt;
       MemeTemplates.userId := Some (App.id user);
       MemeTemplates.name := CreateTemplate.name input;
       MemeTemplates.description := CreateTemplate.description input;
       MemeTemplates.imageUrl := CreateTemplate.imageUrl input;
       MemeTemplates.layoutType := CreateTemplate.layoutType input;
       MemeTemplates.isSystem := false;
       MemeTemplates.createdAt := now;
       MemeTemplates.updatedAt := now |} ;;
  ret {| success := true; data := first inserted |}.

Definition listTemplates_handler (_input : unit)
    (context : ActionAPIContext) (rt : Runtime)
  : Task (Envelope (Listing MemeTemplates.row)) :=
  user <- requireUser context ;;
  templates <- db_select MemeTemplatesT
    (or_ (eq_text MemeTemplates.userId (Some (App.id user)))
         (eq_text MemeTemplates.userId None)) ;;
  ret {| success := true;
         data := {| items := templates; total := length templates |} |}.

Definition createMemeIdea_handler (input : CreateMemeIdea.input)
    (context : ActionAPIContext) (rt : Runtime)
  : Task (Envelope (option MemeIdeas.row)) :=
  user <- requireUser context ;;
  match CreateMemeIdea.templateId input with
  | Some templateId =>
      if truthy templateId
      then _t <- ensureTemplateAccessible templateId (App.id user) ;; ret tt
      else ret tt
  | None => ret tt
  end ;;;
  inserted <- db_insert MemeIdeasT
    {| MemeIdeas.id := randomUUID rt;
       MemeIdeas.userId := App.id user;
       MemeIdeas.templateId := CreateMemeIdea.templateId input;
       MemeIdeas.context := CreateMemeIdea.context input;
       MemeIdeas.topic := CreateMemeIdea.topic input;
       MemeIdeas.createdAt := now rt |} ;;
  ret {| success := true; data := first inserted |}.

Definition listMemeIdeas_handler (_input : unit)
    (context : ActionAPIContext) (rt : Runtime)
  : Task (Envelope (Listing MemeIdeas.row)) :=
  user <- requireUser context ;;
  ideas <- db_select MemeIdeasT
    (eq_text (notnull MemeIdeas.userId) (Some (App.id user))) ;;
  ret {| success := true;
         data := {| items := ideas; total := length ideas |} |}.

Definition createMemeCaption_handler (input : CreateMemeCaption.input)
    (context : ActionAPIContext) (rt : Runtime)
  : Task (Envelope (option MemeCaptions.row)) :=
  user <- requireUser context ;;
  _idea <- getOwnedIdea (CreateMemeCaption.memeIdeaId input) (App.id user) ;;
  inserted <- db_insert MemeCaptionsT
    {| MemeCaptions.id := randomUUID rt;
       MemeCaptions.memeIdeaId := CreateMemeCaption.memeIdeaId input;
       MemeCaptions.variantLabel := CreateMemeCaption.variantLabel input;
       MemeCaptions.topText := CreateMemeCaption.topText input;
       MemeCaptions.bottomText := CreateMemeCaption.bottomText input;
       MemeCaptions.extraText := CreateMemeCaption.extraText input;
       MemeCaptions.isFavorite := nullish (CreateMemeCaption.isFavorite input) false;
       MemeCaptions.isUsed := nullish (CreateMemeCaption.isUsed input) false;
       MemeCaptions.createdAt := now rt |} ;;
  ret {| success := true; data := first inserted |}.

(** The object passed to [.set]: a column is assigned only when the input
    field is not [undefined]; every other column keeps its value.  The
    refinement of the schema makes sure that at least one column is
    assigned whenever the handler runs. *)
Definition caption_set (input : UpdateMemeCaption.input) (c : MemeCaptions.row)
  : MemeCaptions.row :=
  {| MemeCaptions.id := MemeCaptions.id c;
     MemeCaptions.memeIdeaId := MemeCaptions.memeIdeaId c;
     MemeCaptions.variantLabel :=
       match UpdateMemeCaption.variantLabel input with
       | Some v => Some v
       | None => MemeCaptions.variantLabel c
       end;
     MemeCaptions.topText :=
       match UpdateMemeCaption.topText input with
       | Some v => Some v
       | None => MemeCaptions.topText c
       end;
     MemeCaptions.bottomText :=
       match UpdateMemeCaption.bottomText input with
       | Some v => Some v
       | None => MemeCaptions.bottomText c
       end;
     MemeCaptions.extraText :=
       match UpdateMemeCaption.extraText input with
       | Some v => Some v
       | None => MemeCaptions.extraText c
       end;
     MemeCaptions.isFavorite :=
       match UpdateMemeCaption.isFavorite input with
       | Some v => v
       | None => MemeCaptions.isFavorite c
       end;
     MemeCaptions.isUsed :=
       match UpdateMemeCaption.isUsed input with
       | Some v => v
       | None => MemeCaptions.isUsed c
       end;
     MemeCaptions.createdAt := MemeCaptions.createdAt c |}.

Definition updateMemeCaption_handler (input : UpdateMemeCaption.input)
    (context : ActionAPIContext) (rt : Runtime)
  : Task (Envelope (option MemeCaptions.row)) :=
  user <- requireUser context ;;
  _idea <- getOwnedIdea (UpdateMemeCaption.memeIdeaId input) (App.id user) ;;
  found <- db_select MemeCaptionsT
    (and_ [eq_text (notnull MemeCaptions.id) (Some (UpdateMemeCaption.id input));
           eq_text (notnull MemeCaptions.memeIdeaId)
                   (Some (UpdateMemeCaption.memeIdeaId input))]) ;;
  match first found with
  | None => throw (ActionError NOT_FOUND "Meme caption not found.")
  | Some _existing =>
      updated <- db_update MemeCaptionsT (caption_set input)
        (eq_text (notnull MemeCaptions.id) (Some (UpdateMemeCaption.id input))) ;;
      ret {| success := true; data := first updated |}
  end.

Definition deleteMemeCaption_handler (input : DeleteMemeCaption.input)
    (context : ActionAPIContext) (rt : Runtime)
  : Task (Envelope unit) :=
  user <- requireUser context ;;
  _idea <- getOwnedIdea (DeleteMemeCaption.memeIdeaId input) (App.id user) ;;
  result <- db_delete MemeCaptionsT
    (and_ [eq_text (notnull MemeCaptions.id) (Some (DeleteMemeCaption.id input));
           eq_text (notnull MemeCaptions.memeIdeaId)
                   (Some (DeleteMemeCaption.memeIdeaId input))]) ;;
  if (rowsAffected result =? 0)%nat
  then throw (ActionError NOT_FOUND "Meme caption not found.")
  else ret {| success := true; data := tt |}.

Definition listMemeCaptions_handler (input : ListMemeCaptions.input)
    (context : ActionAPIContext) (rt : Runtime)
  : Task (Envelope (Listing MemeCaptions.row)) :=
  user <- requireUser context ;;
  _idea <- getOwnedIdea (ListMemeCaptions.memeIdeaId input) (App.id user) ;;
  let filters :=
    [eq_text (notnull MemeCaptions.memeIdeaId)
             (Some (ListMemeCaptions.memeIdeaId input))] in
  let filters :=
    if ListMemeCaptions.favoritesOnly input
    then (filters ++ [eq_bool (notnull MemeCaptions.isFavorite) (Some true)])%list
    else filters in
  let filters :=
    if ListMemeCaptions.usedOnly input
    then (filters ++ [eq_bool (notnull MemeCaptions.isUsed) (Some true)])%list
    else filters in
  captions <- db_select MemeCaptionsT (and_ filters) ;;
  ret {| success := true;
         data := {| items := captions; total := length captions |} |}.

(** [z.object({}).optional()]: the two listings take no field, so the one
    input of that shape is [tt] and it passes. *)
Definition no_input : Schema unit unit := fun u => inr u.

Definition createTemplate := defineAction CreateTemplate.schema createTemplate_handler.
Definition listTemplates := defineAction no_input listTemplates_handler.
Definition createMemeIdea := defineAction CreateMemeIdea.schema createMemeIdea_handler.
Definition listMemeIdeas := defineAction no_input listMemeIdeas_handler.
Definition createMemeCaption :=
  defineAction CreateMemeCaption.schema createMemeCaption_handler.
Definition updateMemeCaption :=
  defineAction UpdateMemeCaption.schema updateMemeCaption_handler.
Definition deleteMemeCaption :=
  defineAction DeleteMemeCaption.schema deleteMemeCaption_handler.
Definition listMemeCaptions :=
  defineAction ListMemeCaptions.schema listMemeCaptions_handler.

(** The exported object [server]: a request names one of its actions and
    carries that action's input. *)
Inductive Request :=
| CallCreateTemplate (i : CreateTemplate.input)
| CallListTemplates
| CallCreateMemeIdea (i : CreateMemeIdea.input)
| CallListMemeIdeas
| CallCreateMemeCaption (i : CreateMemeCaption.input)
| CallUpdateMemeCaption (i : UpdateMemeCaption.input)
| CallDeleteMemeCaption (i : DeleteMemeCaption.input)
| CallListMemeCaptions (i : ListMemeCaptions.raw).

Inductive Response :=
| TemplateData (r : Envelope (option MemeTemplates.row))
| TemplateList (r : Envelope (Listing MemeTemplates.row))
| IdeaData (r : Envelope (option MemeIdeas.row))
| IdeaList (r : Envelope (Listing MemeIdeas.row))
| CaptionData (r : Envelope (option MemeCaptions.row))
| CaptionList (r : Envelope (Listing MemeCaptions.row))
| Acknowledged (r : Envelope unit).

Definition respond {A : Type} (f : A -> Response) (m : Task A) : Task Response :=
  a <- m ;; ret (f a).

Definition server (req : Request) (context : ActionAPIContext) (rt : Runtime)
  : Task Response :=
  match req with
  | CallCreateTemplate i => respond TemplateData (createTemplate i context rt)
  | CallListTemplates => respond TemplateList (listTemplates tt context rt)
  | CallCreateMemeIdea i => respond IdeaData (createMemeIdea i context rt)
  | CallListMemeIdeas => respond IdeaList (listMemeIdeas tt context rt)
  | CallCreateMemeCaption i => respond CaptionData (createMemeCaption i context rt)
  | CallUpdateMemeCaption i => respond CaptionData (updateMemeCaption i context rt)
  | CallDeleteMemeCaption i => respond Acknowledged (deleteMemeCaption i context rt)
  | CallListMemeCaptions i => respond CaptionList (listMemeCaptions i context rt)
  end.

(** Whether a schema accepts an input. *)
Definition accepts {Raw In : Type} (sch : Schema Raw In) (r : Raw) : bool :=
  match sch r with
  | inl _ => false
  | inr _ => true
  end.

(** Whether the schema of the requested action accepts the request. *)
Definition well_formed (req : Request) : bool :=
  match req with
  | CallCreateTemplate i => accepts CreateTemplate.schema i
  | CallListTemplates => true
  | CallCreateMemeIdea i => accepts CreateMemeIdea.schema i
  | CallListMemeIdeas => true
  | CallCreateMemeCaption i => accepts CreateMemeCaption.schema i
  | CallUpdateMemeCaption i => accepts UpdateMemeCaption.schema i
  | CallDeleteMemeCaption i => accepts DeleteMemeCaption.schema i
  | CallListMemeCaptions i => accepts ListMemeCaptions.schema i
  end.

(** The caller of a request, when the session carries one. *)
Definition caller (context : ActionAPIContext) : option App.User :=
  match locals context with
  | Some l => App.user l
  | None => None
  end.

(** ** Store invariant: primary keys *)

Definition pk_unique {R : Type} (T : Table R) (d : Db) : Prop :=
  NoDup (map (pkey T) (rows T d)).

Definition consistent (d : Db) : Prop :=
  pk_unique MemeTemplatesT d /\ pk_unique MemeIdeasT d /\ pk_unique MemeCaptionsT d.

(** A computation that keeps the primary keys unique. *)
Definition preserves {A : Type} (m : Task A) : Prop :=
  forall w, consistent (store w) -> consistent (store (snd (m w))).

(** The world after one more statement that wrote nothing. *)
Definition after_read (st : Statement) (w : World) : World :=
  {| store := store w; journal := journal w ++ [st] |}.

(** ** Sample data for the examples *)

Definition alice : App.User := {| App.id := "alice" |}.
Definition bob : App.User := {| App.id := "bob" |}.

Definition signed_in (u : App.User) : ActionAPIContext :=
  {| locals := Some {| App.user := Some u |} |}.

Definition anonymous : ActionAPIContext :=
  {| locals := Some {| App.user := None |} |}.

Definition rt0 : Runtime := {| randomUUID := "uuid-0"; now := 1700000000000%Z |}.

Definition empty_world : World :=
  {| store := {| memeTemplates := []; memeIdeas := []; memeCaptions := [] |};
     journal := [] |}.

Definition template_of (tid : string) (owner : option string) : MemeTemplates.row :=
  {| MemeTemplates.id := tid;
     MemeTemplates.userId := owner;
     MemeTemplates.name := "Drake";
     MemeTemplates.description := None;
     MemeTemplates.imageUrl := None;
     MemeTemplates.layoutType := None;
     MemeTemplates.isSystem := false;
     MemeTemplates.createdAt := 0%Z;
     MemeTemplates.updatedAt := 0%Z |}.

Definition idea_of (iid owner : string) : MemeIdeas.row :=
  {| MemeIdeas.id := iid;
     MemeIdeas.userId := owner;
     MemeIdeas.templateId := None;
     MemeIdeas.context := None;
     MemeIdeas.topic := None;
     MemeIdeas.createdAt := 0%Z |}.

Definition caption_of (cid iid : string) (top : option string) (fav used : bool)
  : MemeCaptions.row :=
  {| MemeCaptions.id := cid;
     MemeCaptions.memeIdeaId := iid;
     MemeCaptions.variantLabel := None;
     MemeCaptions.topText := top;
     MemeCaptions.bottomText := None;
     MemeCaptions.extraText := None;
     MemeCaptions.isFavorite := fav;
     MemeCaptions.isUsed := used;
     MemeCaptions.createdAt := 0%Z |}.

Definition world_of (ts : list MemeTemplates.row) (ideas : list MemeIdeas.row)
    (cs : list MemeCaptions.row) : World :=
  {| store := {| memeTemplates := ts; memeIdeas := ideas; memeCaptions := cs |};
     journal := [] |}.

(** A template whose owner column holds the empty string, and a store
    that contains just it. *)
Definition blank_owned_template : MemeTemplates.row := template_of "t1" (Some "").
Definition blank_owned_world : World := world_of [blank_owned_template] [] [].

(** Alice's idea and a store that contains just it. *)
Definition alice_idea : MemeIdeas.row := idea_of "i1" "alice".
Definition alice_world : World := world_of [] [alice_idea] [].

(** A template without owner and a store that contains just it. *)
Definition global_template : MemeTemplates.row := template_of "t0" None.
Definition global_world : World := world_of [global_template] [] [].

(** The idea row [createMemeIdea] inserts. *)
Definition new_idea (input : CreateMemeIdea.input) (u : App.User) (rt : Runtime)
  : MemeIdeas.row :=
  {| MemeIdeas.id := randomUUID rt;
     MemeIdeas.userId := App.id u;
     MemeIdeas.templateId := CreateMemeIdea.templateId input;
     MemeIdeas.context := CreateMemeIdea.context input;
     MemeIdeas.topic := CreateMemeIdea.topic input;
     MemeIdeas.createdAt := now rt |}.

Definition idea_input (templateId : option string) : CreateMemeIdea.input :=
  {| CreateMemeIdea.templateId := templateId;
     CreateMemeIdea.context := None;
     CreateMemeIdea.topic := None |}.


(** An update request that names a caption and an idea and carries none of
    the six updatable fields. *)
Definition update_without_fields (id memeIdeaId : string) : UpdateMemeCaption.input :=
  {| UpdateMemeCaption.id := id;
     UpdateMemeCaption.memeIdeaId := memeIdeaId;
     UpdateMemeCaption.variantLabel := None;
     UpdateMemeCaption.topText := None;
     UpdateMemeCaption.bottomText := None;
     UpdateMemeCaption.extraText := None;
     UpdateMemeCaption.isFavorite := None;
     UpdateMemeCaption.isUsed := None |}.

(** An update request that carries [isFavorite] only. *)
Definition mark_favorite (id memeIdeaId : string) : UpdateMemeCaption.input :=
  {| UpdateMemeCaption.id := id;
     UpdateMemeCaption.memeIdeaId := memeIdeaId;
     UpdateMemeCaption.variantLabel := None;
     UpdateMemeCaption.topText := None;
     UpdateMemeCaption.bottomText := None;
     UpdateMemeCaption.extraText := None;
     UpdateMemeCaption.isFavorite := Some true;
     UpdateMemeCaption.isUsed := None |}.

(** Alice's idea [i1] with the caption [c1] (top text [x]), and bob's idea
    [i2] with the caption [c2]. *)
Definition caption_c1 : MemeCaptions.row := caption_of "c1" "i1" (Some "x") false false.
Definition caption_c2 : MemeCaptions.row := caption_of "c2" "i2" (Some "y") true true.
Definition captions_world : World :=
  world_of [] [idea_of "i1" "alice"; idea_of "i2" "bob"] [caption_c1; caption_c2].

Definition delete_input (id memeIdeaId : string) : DeleteMemeCaption.input :=
  {| DeleteMemeCaption.id := id; DeleteMemeCaption.memeIdeaId := memeIdeaId |}.

(** The rows a [deleteMemeCaption] request addresses. *)
Definition addressed (input : DeleteMemeCaption.input) (c : MemeCaptions.row) : bool :=
  (MemeCaptions.id c =? DeleteMemeCaption.id input)
  && (MemeCaptions.memeIdeaId c =? DeleteMemeCaption.memeIdeaId input).

Definition list_input (memeIdeaId : string) (favoritesOnly usedOnly : option bool)
  : ListMemeCaptions.raw :=
  {| ListMemeCaptions.raw_memeIdeaId := memeIdeaId;
     ListMemeCaptions.raw_favoritesOnly := favoritesOnly;
     ListMemeCaptions.raw_usedOnly := usedOnly |}.

(** Alice's idea [i1] with four captions, one per combination of the two
    flags, and a caption of another idea. *)
Definition flags_world : World :=
  world_of [] [idea_of "i1" "alice"; idea_of "i2" "alice"]
    [caption_of "c00" "i1" None false false;
     caption_of "c10" "i1" None true false;
     caption_of "c01" "i1" None false true;
     caption_of "c11" "i1" None true true;
     caption_of "d11" "i2" None true true].

(** ** Effects of a computation on the store *)

(** A computation that never changes the store. *)
Definition readonly {A : Type} (m : Task A) : Prop :=
  forall w, store (snd (m w)) = store w.

(** A computation that leaves the store as it was whenever it throws. *)
Definition atomic {A : Type} (m : Task A) : Prop :=
  forall w e, fst (m w) = inl e -> store (snd (m w)) = store w.

(** A session: the requests that reach [server] one after the other, each
    with its context and runtime values. *)
Definition Call : Type := (Request * ActionAPIContext * Runtime)%type.

Fixpoint run (calls : list Call) (w : World) : World :=
  match calls with
  | [] => w
  | (req, context, rt) :: rest => run rest (snd (server req context rt w))
  end.

Definition is_select (st : Statement) : bool :=
  match st with
  | SELECT _ => true
  | _ => false
  end.

(** A computation that only sends SELECT statements and leaves the store
    alone. *)
Definition reads_only {A : Type} (m : Task A) : Prop :=
  forall w, store (snd (m w)) = store w
            /\ exists l, journal (snd (m w)) = (journal w ++ l)%list
                         /\ forallb is_select l = true.

(** A computation that at most appends one row to the templates or to the
    ideas and otherwise leaves these two tables alone. *)
Definition append_only {A : Type} (m : Task A) : Prop :=
  forall w, exists ts ideas,
    memeTemplates (store (snd (m w))) = (memeTemplates (store w) ++ ts)%list
    /\ memeIdeas (store (snd (m w))) = (memeIdeas (store w) ++ ideas)%list
    /\ length ts + length ideas <= 1.

Definition template_input (name : string) : CreateTemplate.input :=
  {| CreateTemplate.name := name;
     CreateTemplate.description := None;
     CreateTemplate.imageUrl := None;
     CreateTemplate.layoutType := None |}.

Definition rt_of (uuid : string) : Runtime :=
  {| randomUUID := uuid; now := 1700000000000%Z |}.


(** The template row [createTemplate] inserts. *)
Definition new_template (input : CreateTemplate.input) (u : App.User) (rt : Runtime)
  : MemeTemplates.row :=
  {| MemeTemplates.id := randomUUID rt;
     MemeTemplates.userId := Some (App.id u);
     MemeTemplates.name := CreateTemplate.name input;
     MemeTemplates.description := CreateTemplate.description input;
     MemeTemplates.imageUrl := CreateTemplate.imageUrl input;
     MemeTemplates.layoutType := CreateTemplate.layoutType input;
     MemeTemplates.isSystem := false;
     MemeTemplates.createdAt := now rt;
     MemeTemplates.updatedAt := now rt |}.

(** The caption row [createMemeCaption] inserts. *)
Definition new_caption (input : CreateMemeCaption.input) (rt : Runtime)
  : MemeCaptions.row :=
  {| MemeCaptions.id := randomUUID rt;
     MemeCaptions.memeIdeaId := CreateMemeCaption.memeIdeaId input;
     MemeCaptions.variantLabel := CreateMemeCaption.variantLabel input;
     MemeCaptions.topText := CreateMemeCaption.topText input;
     MemeCaptions.bottomText := CreateMemeCaption.bottomText input;
     MemeCaptions.extraText := CreateMemeCaption.extraText input;
     MemeCaptions.isFavorite := nullish (CreateMemeCaption.isFavorite input) false;
     MemeCaptions.isUsed := nullish (CreateMemeCaption.isUsed input) false;
     MemeCaptions.createdAt := now rt |}.

(** Whether a stored idea has the given id and owner: the condition of
    [getOwnedIdea]. *)
Definition owned_idea (ideaId userId : string) (i : MemeIdeas.row) : bool :=
  (MemeIdeas.id i =? ideaId) && (MemeIdeas.userId i =? userId).

(** The idea a caption request names, for the four caption actions. *)
Definition caption_idea_of (req : Request) : option string :=
  match req with
  | CallCreateMemeCaption i => Some (CreateMemeCaption.memeIdeaId i)
  | CallUpdateMemeCaption i => Some (UpdateMemeCaption.memeIdeaId i)
  | CallDeleteMemeCaption i => Some (DeleteMemeCaption.memeIdeaId i)
  | CallListMemeCaptions i => Some (ListMemeCaptions.raw_memeIdeaId i)
  | _ => None
  end.

(** Whether a caption carries both ids of an update request. *)
Definition targeted (input : UpdateMemeCaption.input) (c : MemeCaptions.row) : bool :=
  (MemeCaptions.id c =? UpdateMemeCaption.id input)
  && (MemeCaptions.memeIdeaId c =? UpdateMemeCaption.memeIdeaId input).

Definition caption_input (memeIdeaId : string) (top : option string)
  : CreateMemeCaption.input :=
  {| CreateMemeCaption.memeIdeaId := memeIdeaId;
     CreateMemeCaption.variantLabel := None;
     CreateMemeCaption.topText := top;
     CreateMemeCaption.bottomText := None;
     CreateMemeCaption.extraText := None;
     CreateMemeCaption.isFavorite := None;
     CreateMemeCaption.isUsed := None |}.

(** * Properties *)

Unset Implicit Arguments.

(** ** Conditions and selections *)

Lemma holds_and3 (a b : tri) : holds (and3 a b) = holds a && holds b.
Proof. destruct a, b; reflexivity. Qed.

Lemma holds_or3 (a b : tri) : holds (or3 a b) = holds a || holds b.
Proof. destruct a, b; reflexivity. Qed.

Lemma holds_of_bool (b : bool) : holds (of_bool b) = b.
Proof. destruct b; reflexivity. Qed.

Section Conditions.
Variable R : Type.

Lemma holds_eq_text_notnull (col : R -> string) (v : string) (r : R) :
  holds (eq_text (notnull col) (Some v) r) = (col r =? v).
Proof. unfold eq_text, notnull. apply holds_of_bool. Qed.

Lemma holds_eq_bool_true (col : R -> bool) (r : R) :
  holds (eq_bool (notnull col) (Some true) r) = col r.
Proof. unfold eq_bool, notnull. rewrite holds_of_bool. destruct (col r); reflexivity. Qed.

Lemma holds_eq_text_null (col : R -> option string) (r : R) :
  holds (eq_text col None r) = false.
Proof. unfold eq_text. destruct (col r); reflexivity. Qed.

Lemma holds_eq_text_some (col : R -> option string) (v : string) (r : R) :
  holds (eq_text col (Some v) r)
  = match col r with Some a => a =? v | None => false end.
Proof. unfold eq_text. destruct (col r); [apply holds_of_bool | reflexivity]. Qed.

Lemma holds_and_pair (a b : Condition R) (r : R) :
  holds (and_ [a; b] r) = holds (a r) && holds (b r).
Proof.
  unfold and_; simpl. rewrite !holds_and3. simpl. now rewrite andb_true_r.
Qed.

Lemma matching_ext (w : Condition R) (p : R -> bool) (rs : list R) :
  (forall r, holds (w r) = p r) -> matching w rs = filter p rs.
Proof. intros E. unfold matching. apply filter_ext. exact E. Qed.

Lemma filter_key_absent (key : R -> string) (k : string) (rs : list R) :
  (forall x, In x rs -> key x <> k) ->
  filter (fun x => key x =? k) rs = [].
Proof.
  induction rs as [|x rs IH]; simpl; intros H; [reflexivity|].
  destruct (key x =? k) eqn:E.
  - apply String.eqb_eq in E. exfalso. now apply (H x); [left|].
  - apply IH. intros y Hy. apply H. now right.
Qed.

(** Selecting on a unique key returns the row that carries it. *)
Lemma filter_key_unique (key : R -> string) (rs : list R) (r : R) :
  NoDup (map key rs) -> In r rs ->
  filter (fun x => key x =? key r) rs = [r].
Proof.
  induction rs as [|x rs IH]; simpl; intros ND HIn; [contradiction|].
  inversion ND as [|k ks Hnotin ND']; subst.
  destruct HIn as [->|HIn].
  - rewrite String.eqb_refl. f_equal.
    apply filter_key_absent. intros y Hy E. apply Hnotin. rewrite <- E.
    now apply in_map.
  - destruct (key x =? key r) eqn:E.
    + apply String.eqb_eq in E. exfalso. apply Hnotin. rewrite E.
      now apply in_map.
    + now apply IH.
Qed.

End Conditions.

Section Selections.
Variable R : Type.
Variable key : R -> string.

Lemma key_injective (rs : list R) (x y : R) :
  NoDup (map key rs) -> In x rs -> In y rs -> key x = key y -> x = y.
Proof.
  induction rs as [|z rs IH]; simpl; intros ND Hx Hy E; [contradiction|].
  inversion ND as [|k ks Hnotin ND']; subst.
  destruct Hx as [->|Hx], Hy as [->|Hy]; auto.
  - exfalso. apply Hnotin. rewrite E. now apply in_map.
  - exfalso. apply Hnotin. rewrite <- E. now apply in_map.
Qed.

Lemma first_filter_none (p : R -> bool) (rs : list R) :
  (forall x, In x rs -> p x = false) -> first (filter p rs) = None.
Proof.
  induction rs as [|z rs IH]; simpl; intros H; [reflexivity|].
  rewrite (H z) by now left. apply IH. intros x Hx. apply H. now right.
Qed.

Lemma first_filter_some (p : R -> bool) (rs : list R) (x : R) :
  first (filter p rs) = Some x -> In x rs /\ p x = true.
Proof.
  intros H. apply filter_In. destruct (filter p rs) as [|y l]; simpl in H.
  - discriminate.
  - injection H as ->. now left.
Qed.

Lemma first_filter_unique (p : R -> bool) (k : string) (rs : list R) (x : R) :
  NoDup (map key rs) -> (forall y, p y = true -> key y = k) ->
  In x rs -> p x = true -> first (filter p rs) = Some x.
Proof.
  intros ND Hk Hx Hp.
  destruct (first (filter p rs)) as [y|] eqn:E.
  - apply first_filter_some in E. destruct E as [Hy Hpy].
    f_equal. apply key_injective with (rs := rs); auto.
    rewrite (Hk y Hpy). symmetry. now apply Hk.
  - assert (Hin : In x (filter p rs)) by (apply filter_In; now split).
    destruct (filter p rs); [contradiction | discriminate].
Qed.

End Selections.

(** ** The access-control helpers, evaluated *)

Lemma getOwnedIdea_eval (ideaId userId : string) (w : World) :
  getOwnedIdea ideaId userId w =
  (match first (filter (fun i => (MemeIdeas.id i =? ideaId)
                                 && (MemeIdeas.userId i =? userId))
                       (memeIdeas (store w))) with
   | None => inl (ActionError NOT_FOUND "Meme idea not found.")
   | Some idea => inr idea
   end,
   after_read (SELECT TMemeIdeas) w).
Proof.
  unfold getOwnedIdea, bind, db_select, after_read, issue; simpl.
  rewrite (matching_ext _ _ (fun i => (MemeIdeas.id i =? ideaId)
                                     && (MemeIdeas.userId i =? userId))).
  - destruct (first _); reflexivity.
  - intros r. rewrite holds_and_pair, !holds_eq_text_notnull. reflexivity.
Qed.

Lemma ensureTemplateAccessible_eval (templateId userId : string) (w : World) :
  ensureTemplateAccessible templateId userId w =
  (match first (filter (fun t => MemeTemplates.id t =? templateId)
                       (memeTemplates (store w))) with
   | None => inl (ActionError NOT_FOUND "Template not found.")
   | Some template =>
       if truthy_opt (MemeTemplates.userId template)
          && strict_neq (MemeTemplates.userId template) userId
       then inl (ActionError FORBIDDEN "You do not have access to this template.")
       else inr template
   end,
   after_read (SELECT TMemeTemplates) w).
Proof.
  unfold ensureTemplateAccessible, bind, db_select, after_read, issue; simpl.
  rewrite (matching_ext _ _ (fun t => MemeTemplates.id t =? templateId)).
  - destruct (first _) as [t|]; [|reflexivity].
    destruct (truthy_opt _ && _); reflexivity.
  - intros r. apply holds_eq_text_notnull.
Qed.

Lemma requireUser_some (context : ActionAPIContext) (u : App.User) (w : World) :
  caller context = Some u -> requireUser context w = (inr u, w).
Proof. unfold requireUser, caller. now intros ->. Qed.

Lemma requireUser_none (context : ActionAPIContext) (w : World) :
  caller context = None ->
  requireUser context w
  = (inl (ActionError UNAUTHORIZED "You must be signed in to perform this action."), w).
Proof. unfold requireUser, caller. now intros ->. Qed.

Ltac solve_nodup :=
  unfold pk_unique; simpl;
  repeat (constructor; [simpl; intuition discriminate|]); constructor.

(** ** resolveOwnedIdea *)

(** C3. [getOwnedIdea] (resolveOwnedIdea) throws NOT_FOUND both when no idea
    carries the id and when the idea with that id belongs to somebody else,
    with one and the same error value (kind and message) in the two cases;
    it returns an idea exactly when that idea is stored, carries the id and
    is owned by the caller.  The store is left as it was. *)
Theorem getOwnedIdea_hides_foreign_ideas (ideaId callerId : string) (w : World) :
  pk_unique MemeIdeasT (store w) ->
  ((forall i, In i (memeIdeas (store w)) -> MemeIdeas.id i <> ideaId) ->
   fst (getOwnedIdea ideaId callerId w)
   = inl (ActionError NOT_FOUND "Meme idea not found."))
  /\ (forall i, In i (memeIdeas (store w)) -> MemeIdeas.id i = ideaId ->
       MemeIdeas.userId i <> callerId ->
       fst (getOwnedIdea ideaId callerId w)
       = inl (ActionError NOT_FOUND "Meme idea not found."))
  /\ (forall i, fst (getOwnedIdea ideaId callerId w) = inr i <->
       In i (memeIdeas (store w)) /\ MemeIdeas.id i = ideaId
       /\ MemeIdeas.userId i = callerId)
  /\ store (snd (getOwnedIdea ideaId callerId w)) = store w.
Proof.
  intros ND. rewrite getOwnedIdea_eval. simpl.
  set (p := fun i => (MemeIdeas.id i =? ideaId) && (MemeIdeas.userId i =? callerId)).
  assert (Hp : forall i, p i = true <->
                 MemeIdeas.id i = ideaId /\ MemeIdeas.userId i = callerId).
  { intros i. unfold p. rewrite andb_true_iff, !String.eqb_eq. tauto. }
  split; [|split; [|split; [|reflexivity]]].
  - intros Habsent. rewrite first_filter_none; [reflexivity|].
    intros x Hx. destruct (p x) eqn:E; [|reflexivity].
    apply Hp in E. exfalso. now apply (Habsent x).
  - intros i Hi Hid Hown. rewrite first_filter_none; [reflexivity|].
    intros x Hx. destruct (p x) eqn:E; [|reflexivity].
    apply Hp in E. destruct E as [Ex Eo]. exfalso. apply Hown.
    rewrite <- Eo. f_equal.
    apply key_injective with (key := MemeIdeas.id) (rs := memeIdeas (store w));
      auto.
    now rewrite Hid.
  - intros i. split.
    + destruct (first (filter p (memeIdeas (store w)))) as [x|] eqn:E;
        [|discriminate].
      intros H. injection H as <-. apply first_filter_some in E.
      destruct E as [Hx Hpx]. apply Hp in Hpx. tauto.
    + intros (Hi & Hid & Hown).
      rewrite first_filter_unique with (key := MemeIdeas.id) (k := ideaId) (x := i);
        auto.
      * intros y Hy. now apply Hp in Hy.
      * apply Hp. now split.
Qed.

Lemma getOwnedIdea_hides_foreign_ideas_witness :
  pk_unique MemeIdeasT (store alice_world)
  /\ fst (getOwnedIdea "i1" "bob" alice_world)
     = inl (ActionError NOT_FOUND "Meme idea not found.")
  /\ fst (getOwnedIdea "i2" "bob" alice_world)
     = inl (ActionError NOT_FOUND "Meme idea not found.")
  /\ fst (getOwnedIdea "i1" "alice" alice_world) = inr alice_idea.
Proof.
  assert (ND : pk_unique MemeIdeasT (store alice_world)) by solve_nodup.
  split; [exact ND|]. split; [|split].
  - apply (proj1 (proj2 (getOwnedIdea_hides_foreign_ideas "i1" "bob" alice_world ND))
             alice_idea); simpl; [now left | reflexivity | discriminate].
  - apply (proj1 (getOwnedIdea_hides_foreign_ideas "i2" "bob" alice_world ND)).
    simpl. intros i [<-|[]]. discriminate.
  - apply (proj1 (proj2 (proj2 (getOwnedIdea_hides_foreign_ideas "i1" "alice" alice_world ND)))).
    simpl. repeat split. now left.
Defined.

(** ** resolveAccessibleTemplate *)

(** The three outcomes of [ensureTemplateAccessible] on a store with unique
    template ids, and what it leaves behind. *)
Lemma ensureTemplateAccessible_by_key (templateId callerId : string) (w : World) :
  pk_unique MemeTemplatesT (store w) ->
  ((forall t, In t (memeTemplates (store w)) -> MemeTemplates.id t <> templateId) ->
   fst (ensureTemplateAccessible templateId callerId w)
   = inl (ActionError NOT_FOUND "Template not found."))
  /\ (forall t o, In t (memeTemplates (store w)) ->
       MemeTemplates.id t = templateId ->
       MemeTemplates.userId t = Some o -> o <> "" -> o <> callerId ->
       fst (ensureTemplateAccessible templateId callerId w)
       = inl (ActionError FORBIDDEN "You do not have access to this template."))
  /\ (forall t, In t (memeTemplates (store w)) ->
       MemeTemplates.id t = templateId ->
       MemeTemplates.userId t = None \/ MemeTemplates.userId t = Some ""
       \/ MemeTemplates.userId t = Some callerId ->
       fst (ensureTemplateAccessible templateId callerId w) = inr t)
  /\ snd (ensureTemplateAccessible templateId callerId w)
     = after_read (SELECT TMemeTemplates) w.
Proof.
  intros ND. rewrite ensureTemplateAccessible_eval. simpl.
  assert (Hsel : forall t, In t (memeTemplates (store w)) ->
                 MemeTemplates.id t = templateId ->
                 first (filter (fun x => MemeTemplates.id x =? templateId)
                               (memeTemplates (store w))) = Some t).
  { intros t Ht <-.
    now rewrite filter_key_unique with (key := MemeTemplates.id) (r := t). }
  split; [|split; [|split; [|reflexivity]]].
  - intros Habsent. now rewrite filter_key_absent.
  - intros t o Ht Hid Ho Hne Hother. rewrite (Hsel t Ht Hid), Ho. simpl.
    unfold truthy.
    destruct (o =? "") eqn:E1; [apply String.eqb_eq in E1; contradiction|].
    destruct (o =? callerId) eqn:E2; [apply String.eqb_eq in E2; contradiction|].
    reflexivity.
  - intros t Ht Hid Hacc. rewrite (Hsel t Ht Hid).
    destruct Hacc as [->|[->| ->]]; simpl; try reflexivity.
    rewrite String.eqb_refl. simpl. now rewrite andb_false_r.
Qed.

(** C4, on the code: a stored template whose owner column holds the empty
    string is returned to every caller.  The ownership guard
    [template.userId && template.userId !== userId] reads a falsy owner as
    no owner, so the template of the user with id [""] is handed to any
    other user instead of FORBIDDEN, whereas [listTemplates] compares the
    same column with the caller's id and treats that user as an owner like
    any other. *)
Theorem ensureTemplateAccessible_admits_blank_owner (templateId callerId : string)
    (w : World) (t : MemeTemplates.row) :
  pk_unique MemeTemplatesT (store w) ->
  In t (memeTemplates (store w)) ->
  MemeTemplates.id t = templateId ->
  MemeTemplates.userId t = Some "" ->
  fst (ensureTemplateAccessible templateId callerId w) = inr t.
Proof.
  intros ND Ht Hid Hown.
  apply (proj1 (proj2 (proj2 (ensureTemplateAccessible_by_key templateId callerId
                                w ND))) t Ht Hid).
  right. now left.
Qed.

Lemma ensureTemplateAccessible_admits_blank_owner_witness :
  pk_unique MemeTemplatesT (store blank_owned_world)
  /\ In blank_owned_template (memeTemplates (store blank_owned_world))
  /\ MemeTemplates.userId blank_owned_template = Some ""
  /\ "" <> "alice"
  /\ fst (ensureTemplateAccessible "t1" "alice" blank_owned_world)
     = inr blank_owned_template.
Proof.
  assert (ND : pk_unique MemeTemplatesT (store blank_owned_world)) by solve_nodup.
  assert (Hin : In blank_owned_template (memeTemplates (store blank_owned_world)))
    by (simpl; now left).
  split; [exact ND|]. split; [exact Hin|]. split; [reflexivity|].
  split; [discriminate|].
  exact (ensureTemplateAccessible_admits_blank_owner "t1" "alice" blank_owned_world
           blank_owned_template ND Hin eq_refl eq_refl).
Defined.

Lemma template_by_id_cases (templateId : string) (w : World) :
  (forall t, In t (memeTemplates (store w)) -> MemeTemplates.id t <> templateId)
  \/ (exists t, In t (memeTemplates (store w)) /\ MemeTemplates.id t = templateId).
Proof.
  destruct (first (filter (fun x => MemeTemplates.id x =? templateId)
                          (memeTemplates (store w)))) as [t|] eqn:E.
  - right. exists t. apply first_filter_some in E.
    now rewrite String.eqb_eq in E.
  - left. intros t Ht Hid.
    assert (Hin : In t (filter (fun x => MemeTemplates.id x =? templateId)
                               (memeTemplates (store w)))).
    { apply filter_In. split; [exact Ht | now apply String.eqb_eq]. }
    destruct (filter _ (memeTemplates (store w))); [contradiction | discriminate].
Qed.

(** Everywhere else the helper does what is expected of it: on a store
    with unique template ids in which no template has the empty string as
    owner, it throws NOT_FOUND exactly when no template carries the id,
    FORBIDDEN exactly when the template with that id is owned by a user
    other than the caller, and returns a template exactly when it is the
    stored template with that id and is without owner or owned by the
    caller.  It issues one SELECT and writes nothing. *)
Lemma ensureTemplateAccessible_named_owners (templateId callerId : string)
    (w : World) :
  pk_unique MemeTemplatesT (store w) ->
  (forall t, In t (memeTemplates (store w)) -> MemeTemplates.userId t <> Some "") ->
  (fst (ensureTemplateAccessible templateId callerId w)
   = inl (ActionError NOT_FOUND "Template not found.") <->
   forall t, In t (memeTemplates (store w)) -> MemeTemplates.id t <> templateId)
  /\ (fst (ensureTemplateAccessible templateId callerId w)
      = inl (ActionError FORBIDDEN "You do not have access to this template.") <->
      exists t o, In t (memeTemplates (store w))
                  /\ MemeTemplates.id t = templateId
                  /\ MemeTemplates.userId t = Some o /\ o <> callerId)
  /\ (forall t, fst (ensureTemplateAccessible templateId callerId w) = inr t <->
       In t (memeTemplates (store w)) /\ MemeTemplates.id t = templateId
       /\ (MemeTemplates.userId t = None
           \/ MemeTemplates.userId t = Some callerId))
  /\ snd (ensureTemplateAccessible templateId callerId w)
     = after_read (SELECT TMemeTemplates) w.
Proof.
  intros ND Hnamed.
  destruct (ensureTemplateAccessible_by_key templateId callerId w ND)
    as (HNF & HFB & HOK & Hsnd).
  assert (Hcases : forall t, In t (memeTemplates (store w)) ->
            (MemeTemplates.userId t = None
             \/ MemeTemplates.userId t = Some callerId)
            \/ (exists o, MemeTemplates.userId t = Some o /\ o <> ""
                          /\ o <> callerId)).
  { intros t Ht. pose proof (Hnamed t Ht) as Hne.
    destruct (MemeTemplates.userId t) as [o|]; [|now left; left].
    destruct (string_dec o callerId) as [->|Hother]; [now left; right|].
    right. exists o. repeat split; auto. intros ->. now apply Hne. }
  split; [|split; [|split; [|exact Hsnd]]].
  - split; [|exact HNF].
    intros Hres.
    destruct (template_by_id_cases templateId w) as [Habsent|(t & Ht & Hid)];
      [exact Habsent|].
    destruct (Hcases t Ht) as [Hacc|(o & Ho & Hne & Hother)].
    + rewrite (HOK t Ht Hid) in Hres by tauto. discriminate.
    + rewrite (HFB t o Ht Hid Ho Hne Hother) in Hres. discriminate.
  - split.
    + intros Hres.
      destruct (template_by_id_cases templateId w) as [Habsent|(t & Ht & Hid)].
      { rewrite (HNF Habsent) in Hres. discriminate. }
      destruct (Hcases t Ht) as [Hacc|(o & Ho & Hne & Hother)].
      * rewrite (HOK t Ht Hid) in Hres by tauto. discriminate.
      * now exists t, o.
    + intros (t & o & Ht & Hid & Ho & Hother).
      apply (HFB t o); auto. intros ->. now apply (Hnamed t Ht).
  - intros t. split.
    + intros Hres.
      destruct (template_by_id_cases templateId w) as [Habsent|(t' & Ht' & Hid')].
      { rewrite (HNF Habsent) in Hres. discriminate. }
      destruct (Hcases t' Ht') as [Hacc|(o & Ho & Hne & Hother)].
      * rewrite (HOK t' Ht' Hid') in Hres by tauto. injection Hres as <-. tauto.
      * rewrite (HFB t' o Ht' Hid' Ho Hne Hother) in Hres. discriminate.
    + intros (Ht & Hid & Hacc). apply HOK; tauto.
Qed.

(** ** listTemplates *)

Lemma listTemplates_eval (context : ActionAPIContext) (rt : Runtime) (w : World)
    (u : App.User) :
  caller context = Some u ->
  listTemplates tt context rt w =
  (let found := filter (fun t => match MemeTemplates.userId t with
                                 | Some o => o =? App.id u
                                 | None => false
                                 end) (memeTemplates (store w)) in
   inr {| success := true;
          data := {| items := found; total := length found |} |},
   after_read (SELECT TMemeTemplates) w).
Proof.
  intros Hu.
  unfold listTemplates, defineAction, no_input, listTemplates_handler, bind.
  rewrite (requireUser_some _ _ _ Hu).
  unfold db_select, after_read, issue, ret; simpl.
  rewrite (matching_ext _ _ (fun t => match MemeTemplates.userId t with
                                       | Some o => o =? App.id u
                                       | None => false
                                       end)).
  - reflexivity.
  - intros r. unfold or_. rewrite holds_or3, holds_eq_text_some, holds_eq_text_null.
    apply orb_false_r.
Qed.

Lemma listTemplates_anonymous (context : ActionAPIContext) (rt : Runtime) (w : World) :
  caller context = None ->
  listTemplates tt context rt w
  = (inl (ActionError UNAUTHORIZED "You must be signed in to perform this action."), w).
Proof.
  intros Hu.
  unfold listTemplates, defineAction, no_input, listTemplates_handler, bind.
  now rewrite (requireUser_none _ _ Hu).
Qed.

(** The templates a listing returns are exactly the stored templates whose
    owner column equals the caller's id. *)
Lemma listTemplates_items (context : ActionAPIContext) (rt : Runtime) (w w' : World)
    (r : Envelope (Listing MemeTemplates.row)) :
  listTemplates tt context rt w = (inr r, w') ->
  exists u, caller context = Some u /\
    forall t, In t (items (data r)) <->
              In t (memeTemplates (store w))
              /\ MemeTemplates.userId t = Some (App.id u).
Proof.
  intros H. destruct (caller context) as [u|] eqn:Hu.
  - exists u. split; [reflexivity|].
    rewrite (listTemplates_eval _ rt w _ Hu) in H. simpl in H.
    injection H as <- _. simpl. intros t. rewrite filter_In.
    destruct (MemeTemplates.userId t) as [o|].
    + rewrite String.eqb_eq. split; intros [? E]; split; congruence.
    + split; intros [? E]; discriminate.
  - rewrite (listTemplates_anonymous _ rt w Hu) in H. discriminate.
Qed.

(** C1, on the code: a template without owner is in nobody's listing.  The
    second disjunct of the WHERE clause, [eq(MemeTemplates.userId, null)],
    compares the column with NULL, which no row satisfies. *)
Theorem listTemplates_omits_ownerless (context : ActionAPIContext) (rt : Runtime)
    (w w' : World) (r : Envelope (Listing MemeTemplates.row))
    (t : MemeTemplates.row) :
  listTemplates tt context rt w = (inr r, w') ->
  MemeTemplates.userId t = None ->
  ~ In t (items (data r)).
Proof.
  intros H Hnone Hin.
  destruct (listTemplates_items _ _ _ _ _ H) as (u & _ & Hitems).
  apply Hitems in Hin. destruct Hin as [_ E]. congruence.
Qed.

Lemma listTemplates_omits_ownerless_witness :
  In global_template (memeTemplates (store global_world))
  /\ MemeTemplates.userId global_template = None
  /\ (exists r w', listTemplates tt (signed_in alice) rt0 global_world = (inr r, w')
                   /\ items (data r) = [])
  /\ ~ In global_template
         (items (data {| success := true;
                         data := {| items := @nil MemeTemplates.row; total := 0 |} |})).
Proof.
  split; [now left|]. split; [reflexivity|]. split.
  - eexists. eexists. split; reflexivity.
  - apply (listTemplates_omits_ownerless (signed_in alice) rt0 global_world
             (after_read (SELECT TMemeTemplates) global_world)
             {| success := true;
                data := {| items := @nil MemeTemplates.row; total := 0 |} |}
             global_template); reflexivity.
Defined.

(** The part of C1 that holds: a template with an owner is listed for that
    owner and for nobody else. *)
Lemma listTemplates_owned_only (context : ActionAPIContext) (rt : Runtime)
    (w : World) (u : App.User) (t : MemeTemplates.row) (o : string) :
  caller context = Some u ->
  In t (memeTemplates (store w)) ->
  MemeTemplates.userId t = Some o ->
  exists r w', listTemplates tt context rt w = (inr r, w')
               /\ (In t (items (data r)) <-> o = App.id u).
Proof.
  intros Hu Ht Ho. eexists. eexists. split.
  - apply (listTemplates_eval _ rt w _ Hu).
  - simpl. rewrite filter_In, Ho, String.eqb_eq. tauto.
Qed.

(** ** createMemeIdea *)

Lemma has_id_In (k : string) (ks : list string) : has_id k ks = true <-> In k ks.
Proof.
  unfold has_id. rewrite existsb_exists. split.
  - intros (x & Hx & E). apply String.eqb_eq in E. now subst.
  - intros H. exists k. split; [exact H | apply String.eqb_refl].
Qed.

(** An insert goes through exactly when the id is fresh and the references
    of the row exist. *)
Lemma violates_false (R : Type) (T : Table R) (r : R) (d : Db) :
  violates T r d = false
  <-> ~ In (pkey T r) (map (pkey T) (rows T d)) /\ references T r d = true.
Proof.
  unfold violates. rewrite orb_false_iff, negb_false_iff. split.
  - intros [H1 H2]. split; [|exact H2]. intros Hin.
    apply has_id_In in Hin. congruence.
  - intros [H1 H2]. split; [|exact H2].
    destruct (has_id _ _) eqn:E; [|reflexivity].
    apply has_id_In in E. contradiction.
Qed.

Lemma db_insert_fresh (R : Type) (T : Table R) (r : R) (w : World) :
  ~ In (pkey T r) (map (pkey T) (rows T (store w))) ->
  references T r (store w) = true ->
  db_insert T r w
  = (inr [r], {| store := put T (rows T (store w) ++ [r]) (store w);
                 journal := journal w ++ [INSERT (tname T)] |}).
Proof.
  intros H1 H2. unfold db_insert.
  now rewrite (proj2 (violates_false R T r (store w)) (conj H1 H2)).
Qed.


Lemma createMemeIdea_gate (input : CreateMemeIdea.input) (context : ActionAPIContext)
    (rt : Runtime) (w : World) (u : App.User) (tid : string) :
  caller context = Some u ->
  CreateMemeIdea.templateId input = Some tid -> tid <> "" ->
  createMemeIdea input context rt w =
  match ensureTemplateAccessible tid (App.id u) w with
  | (inl e, w') => (inl e, w')
  | (inr _, w') =>
      match db_insert MemeIdeasT (new_idea input u rt) w' with
      | (inl e, w'') => (inl e, w'')
      | (inr inserted, w'') => (inr {| success := true; data := first inserted |}, w'')
      end
  end.
Proof.
  intros Hu Htid Hne.
  unfold createMemeIdea, defineAction, CreateMemeIdea.schema,
    createMemeIdea_handler, bind.
  rewrite (requireUser_some _ _ _ Hu), Htid.
  unfold truthy. destruct (tid =? "") eqn:E; [apply String.eqb_eq in E; contradiction|].
  simpl. destruct (ensureTemplateAccessible tid (App.id u) w) as [[e|t] w1];
    [reflexivity|].
  unfold ret, new_idea. rewrite Htid.
  destruct (db_insert MemeIdeasT _ w1) as [[e|ins] w2]; reflexivity.
Qed.

(** The reference of a new idea exists when its template does. *)
Lemma new_idea_reference (input : CreateMemeIdea.input) (u : App.User) (rt : Runtime)
    (d : Db) :
  match CreateMemeIdea.templateId input with
  | Some tid => exists t, In t (memeTemplates d) /\ MemeTemplates.id t = tid
  | None => True
  end ->
  references MemeIdeasT (new_idea input u rt) d = true.
Proof.
  simpl. destruct (CreateMemeIdea.templateId input) as [tid|]; [|reflexivity].
  intros (t & Ht & <-). apply has_id_In. now apply in_map.
Qed.



(** ** updateMemeCaption *)

Lemma parsed_inr (A : Type) (issues : list ZodIssue) (a b : A) :
  parsed issues a = inr b -> issues = [] /\ b = a.
Proof.
  unfold parsed. destruct issues; [|discriminate].
  intros H. injection H as <-. now split.
Qed.

Lemma parsed_inl (A : Type) (issues found : list ZodIssue) (a : A) :
  parsed issues a = inl found -> found = issues /\ issues <> [].
Proof.
  unfold parsed. destruct issues; [discriminate|].
  intros H. injection H as <-. split; [reflexivity | discriminate].
Qed.

Lemma first_filter_nth (R : Type) (p : R -> bool) (rs : list R) (x : R) :
  first (filter p rs) = Some x ->
  exists n, nth_error rs n = Some x /\ p x = true.
Proof.
  induction rs as [|y rs IH]; simpl; [discriminate|].
  destruct (p y) eqn:E.
  - simpl. intros H. injection H as <-. exists 0. now split.
  - intros H. destruct (IH H) as (n & Hn & Hp). exists (S n). now split.
Qed.

(** The rows of the captions table after the UPDATE of [updateMemeCaption]. *)
Lemma updateMemeCaption_cases (input : UpdateMemeCaption.input)
    (context : ActionAPIContext) (rt : Runtime) (w : World) :
  (exists e, fst (updateMemeCaption input context rt w) = inl e
             /\ store (snd (updateMemeCaption input context rt w)) = store w)
  \/ (exists existing,
        In existing (memeCaptions (store w))
        /\ MemeCaptions.id existing = UpdateMemeCaption.id input
        /\ MemeCaptions.memeIdeaId existing = UpdateMemeCaption.memeIdeaId input
        /\ updateMemeCaption input context rt w
           = (inr {| success := true;
                     data := first (map (caption_set input)
                               (filter (fun c => MemeCaptions.id c
                                                 =? UpdateMemeCaption.id input)
                                       (memeCaptions (store w)))) |},
              {| store := put MemeCaptionsT
                   (map (fun c => if MemeCaptions.id c =? UpdateMemeCaption.id input
                                  then caption_set input c else c)
                        (memeCaptions (store w))) (store w);
                 journal := ((journal w ++ [SELECT TMemeIdeas])
                             ++ [SELECT TMemeCaptions]) ++ [UPDATE TMemeCaptions] |})).
Proof.
  unfold updateMemeCaption, defineAction.
  destruct (UpdateMemeCaption.schema input) as [issues|i] eqn:Hs.
  { left. eexists. split; reflexivity. }
  apply parsed_inr in Hs. destruct Hs as [_ ->].
  unfold updateMemeCaption_handler, bind.
  destruct (caller context) as [u|] eqn:Hu.
  2:{ rewrite (requireUser_none _ _ Hu). left. eexists. split; reflexivity. }
  rewrite (requireUser_some _ _ _ Hu), getOwnedIdea_eval.
  destruct (first (filter _ (memeIdeas (store w)))) as [idea|].
  2:{ left. eexists. split; reflexivity. }
  unfold db_select, db_update, after_read, issue, ret; simpl.
  rewrite (matching_ext _ _
             (fun c => (MemeCaptions.id c =? UpdateMemeCaption.id input)
                       && (MemeCaptions.memeIdeaId c
                           =? UpdateMemeCaption.memeIdeaId input)))
    by (intros r; rewrite holds_and_pair, !holds_eq_text_notnull; reflexivity).
  destruct (first (filter _ (memeCaptions (store w)))) as [existing|] eqn:Hex.
  2:{ left. eexists. split; reflexivity. }
  right. exists existing.
  apply first_filter_some in Hex. destruct Hex as [Hin Hp].
  apply andb_true_iff in Hp. rewrite !String.eqb_eq in Hp. destruct Hp as [Hid Hidea].
  split; [exact Hin|]. split; [exact Hid|]. split; [exact Hidea|].
  rewrite (matching_ext _ _
             (fun c => MemeCaptions.id c =? UpdateMemeCaption.id input))
    by (intros r; apply holds_eq_text_notnull).
  f_equal. f_equal. f_equal. apply map_ext. intros c.
  now rewrite holds_eq_text_notnull.
Qed.

(** C5. When [updateMemeCaption] succeeds, the caption it returns is a stored
    caption with the requested id, rewritten in place: every column whose
    input field is present holds the supplied value, every column whose
    input field is absent, and the id, the parent idea and the creation date,
    hold what they held before.  So an update that carries only [isFavorite]
    leaves [topText], [bottomText], [extraText], [variantLabel] and [isUsed]
    as they were. *)
Theorem updateMemeCaption_partial_update (input : UpdateMemeCaption.input)
    (context : ActionAPIContext) (rt : Runtime) (w w' : World)
    (r : Envelope (option MemeCaptions.row)) :
  updateMemeCaption input context rt w = (inr r, w') ->
  exists n before after,
    nth_error (memeCaptions (store w)) n = Some before
    /\ MemeCaptions.id before = UpdateMemeCaption.id input
    /\ data r = Some after
    /\ nth_error (memeCaptions (store w')) n = Some after
    /\ MemeCaptions.id after = MemeCaptions.id before
    /\ MemeCaptions.memeIdeaId after = MemeCaptions.memeIdeaId before
    /\ MemeCaptions.createdAt after = MemeCaptions.createdAt before
    /\ MemeCaptions.variantLabel after
       = match UpdateMemeCaption.variantLabel input with
         | Some v => Some v
         | None => MemeCaptions.variantLabel before
         end
    /\ MemeCaptions.topText after
       = match UpdateMemeCaption.topText input with
         | Some v => Some v
         | None => MemeCaptions.topText before
         end
    /\ MemeCaptions.bottomText after
       = match UpdateMemeCaption.bottomText input with
         | Some v => Some v
         | None => MemeCaptions.bottomText before
         end
    /\ MemeCaptions.extraText after
       = match UpdateMemeCaption.extraText input with
         | Some v => Some v
         | None => MemeCaptions.extraText before
         end
    /\ MemeCaptions.isFavorite after
       = match UpdateMemeCaption.isFavorite input with
         | Some v => v
         | None => MemeCaptions.isFavorite before
         end
    /\ MemeCaptions.isUsed after
       = match UpdateMemeCaption.isUsed input with
         | Some v => v
         | None => MemeCaptions.isUsed before
         end.
Proof.
  intros H.
  destruct (updateMemeCaption_cases input context rt w)
    as [(e & He & _) | (existing & Hin & Hid & Hidea & Heq)].
  { rewrite H in He. discriminate. }
  rewrite Heq in H. injection H as <- <-. simpl.
  destruct (first (filter (fun c => MemeCaptions.id c =? UpdateMemeCaption.id input)
                          (memeCaptions (store w)))) as [c0|] eqn:Hc0.
  2:{ exfalso.
      assert (Hin' : In existing
                (filter (fun c => MemeCaptions.id c =? UpdateMemeCaption.id input)
                        (memeCaptions (store w)))).
      { apply filter_In. split; [exact Hin|]. now apply String.eqb_eq. }
      destruct (filter _ (memeCaptions (store w))); [contradiction | discriminate]. }
  destruct (first_filter_nth _ _ _ _ Hc0) as (n & Hn & Hp).
  exists n, c0, (caption_set input c0).
  split; [exact Hn|]. split; [now apply String.eqb_eq|].
  split.
  - destruct (filter _ (memeCaptions (store w))) as [|y l]; [discriminate|].
    simpl in Hc0. injection Hc0 as ->. reflexivity.
  - split.
    + rewrite nth_error_map, Hn. simpl. now rewrite Hp.
    + repeat split.
Qed.

Lemma updateMemeCaption_partial_update_witness :
  exists r w',
    updateMemeCaption (mark_favorite "c1" "i1") (signed_in alice) rt0 captions_world
    = (inr r, w')
    /\ exists after,
         data r = Some after
         /\ MemeCaptions.topText after = Some "x"
         /\ MemeCaptions.isFavorite after = true
         /\ MemeCaptions.isUsed after = false.
Proof.
  eexists. eexists. split; [reflexivity|].
  destruct (updateMemeCaption_partial_update (mark_favorite "c1" "i1")
              (signed_in alice) rt0 captions_world _ _ eq_refl)
    as (n & before & after & Hn & Hid & Hdata & _ & _ & _ & _ & _ & Htop & _ & _
        & Hfav & Hused).
  exists after. split; [exact Hdata|].
  assert (Hbefore : before = caption_c1).
  { destruct n as [|[|[|n]]]; simpl in Hn; try discriminate;
      injection Hn as <-; [reflexivity | discriminate Hid]. }
  subst before. simpl in Htop, Hfav, Hused. now repeat split.
Defined.

(** C6. An [updateMemeCaption] request that carries none of the six
    updatable fields is rejected by the input schema with an input error
    (code BAD_REQUEST) that contains the refinement's issue; the world comes
    back as it was, journal included: no statement was sent to the store. *)
Theorem updateMemeCaption_without_fields_rejected (id memeIdeaId : string)
    (context : ActionAPIContext) (rt : Runtime) (w : World) :
  exists issues,
    updateMemeCaption (update_without_fields id memeIdeaId) context rt w
    = (inl (ActionInputError issues), w)
    /\ In UpdateMemeCaption.refinement_issue issues
    /\ code_of (ActionInputError issues) = BAD_REQUEST.
Proof.
  unfold updateMemeCaption, defineAction, UpdateMemeCaption.schema.
  set (issues := (min1 "id" _ ++ min1 "memeIdeaId" _ ++ _)%list).
  assert (Hin : In UpdateMemeCaption.refinement_issue issues).
  { unfold issues. apply in_or_app. right. apply in_or_app. right.
    simpl. now left. }
  exists issues. unfold parsed.
  destruct issues as [|i l]; [contradiction|].
  now repeat split.
Qed.

(** C10. Under uniqueness of the captions' primary key, [updateMemeCaption]
    leaves every caption of another idea than the one named in the request
    exactly as and where it was, whatever the outcome of the call; the
    templates and the ideas are not touched at all. *)
Theorem updateMemeCaption_confined_to_idea (input : UpdateMemeCaption.input)
    (context : ActionAPIContext) (rt : Runtime) (w : World) :
  pk_unique MemeCaptionsT (store w) ->
  (forall n c,
     nth_error (memeCaptions (store w)) n = Some c ->
     MemeCaptions.memeIdeaId c <> UpdateMemeCaption.memeIdeaId input ->
     nth_error (memeCaptions (store (snd (updateMemeCaption input context rt w)))) n
     = Some c)
  /\ memeIdeas (store (snd (updateMemeCaption input context rt w)))
     = memeIdeas (store w)
  /\ memeTemplates (store (snd (updateMemeCaption input context rt w)))
     = memeTemplates (store w).
Proof.
  intros ND.
  destruct (updateMemeCaption_cases input context rt w)
    as [(e & _ & Hstore) | (existing & Hin & Hid & Hidea & Heq)].
  { rewrite Hstore. repeat split. intros n c Hn _. exact Hn. }
  rewrite Heq. simpl. split; [|split; reflexivity].
  intros n c Hn Hother. rewrite nth_error_map, Hn. simpl.
  destruct (MemeCaptions.id c =? UpdateMemeCaption.id input) eqn:E; [|reflexivity].
  apply String.eqb_eq in E. exfalso. apply Hother. rewrite <- Hidea. f_equal.
  apply key_injective with (key := MemeCaptions.id) (rs := memeCaptions (store w));
    auto.
  - eapply nth_error_In. exact Hn.
  - congruence.
Qed.

Lemma updateMemeCaption_confined_to_idea_witness :
  pk_unique MemeCaptionsT (store captions_world)
  /\ nth_error (memeCaptions (store (snd (updateMemeCaption (mark_favorite "c1" "i1")
                                           (signed_in alice) rt0 captions_world)))) 1
     = Some caption_c2
  /\ nth_error (memeCaptions (store (snd (updateMemeCaption (mark_favorite "c1" "i1")
                                           (signed_in alice) rt0 captions_world)))) 0
     <> Some caption_c1.
Proof.
  assert (ND : pk_unique MemeCaptionsT (store captions_world)) by solve_nodup.
  split; [exact ND|]. split.
  - apply (proj1 (updateMemeCaption_confined_to_idea (mark_favorite "c1" "i1")
                    (signed_in alice) rt0 captions_world ND) 1 caption_c2).
    + reflexivity.
    + discriminate.
  - discriminate.
Defined.

(** ** deleteMemeCaption *)

Lemma filter_none_id (R : Type) (p : R -> bool) (rs : list R) :
  (forall x, In x rs -> p x = false) -> filter (fun x => negb (p x)) rs = rs.
Proof.
  induction rs as [|y rs IH]; simpl; intros H; [reflexivity|].
  rewrite (H y) by now left. simpl. f_equal. apply IH.
  intros x Hx. apply H. now right.
Qed.

Lemma filter_length_lt (R : Type) (p : R -> bool) (rs : list R) (x : R) :
  In x rs -> p x = true -> length (filter (fun y => negb (p y)) rs) < length rs.
Proof.
  induction rs as [|y rs IH]; simpl; intros Hin Hp; [contradiction|].
  pose proof (filter_length_le (fun y => negb (p y)) rs) as Hle.
  destruct Hin as [->|Hin].
  - rewrite Hp. simpl. lia.
  - specialize (IH Hin Hp). destruct (negb (p y)); simpl; lia.
Qed.

(** What a call of [deleteMemeCaption] by a signed-in caller with a
    well-formed input does. *)
Lemma deleteMemeCaption_eval (input : DeleteMemeCaption.input)
    (context : ActionAPIContext) (rt : Runtime) (w : World) (u : App.User) :
  caller context = Some u ->
  accepts DeleteMemeCaption.schema input = true ->
  deleteMemeCaption input context rt w =
  match first (filter (fun i => (MemeIdeas.id i =? DeleteMemeCaption.memeIdeaId input)
                                && (MemeIdeas.userId i =? App.id u))
                      (memeIdeas (store w))) with
  | None => (inl (ActionError NOT_FOUND "Meme idea not found."),
             after_read (SELECT TMemeIdeas) w)
  | Some _ =>
      (if (length (filter (addressed input) (memeCaptions (store w))) =? 0)%nat
       then inl (ActionError NOT_FOUND "Meme caption not found.")
       else inr {| success := true; data := tt |},
       {| store := put MemeCaptionsT
                     (filter (fun c => negb (addressed input c))
                             (memeCaptions (store w))) (store w);
          journal := (journal w ++ [SELECT TMemeIdeas]) ++ [DELETE TMemeCaptions] |})
  end.
Proof.
  intros Hu Hok. unfold deleteMemeCaption, defineAction.
  unfold accepts in Hok.
  destruct (DeleteMemeCaption.schema input) as [issues|i] eqn:Hs; [discriminate|].
  apply parsed_inr in Hs. destruct Hs as [_ ->].
  unfold deleteMemeCaption_handler, bind.
  rewrite (requireUser_some _ _ _ Hu), getOwnedIdea_eval.
  destruct (first (filter _ (memeIdeas (store w)))) as [idea|]; [|reflexivity].
  unfold db_delete, after_read, issue, ret, throw.
  rewrite (matching_ext _ _ (addressed input))
    by (intros r; unfold addressed;
        rewrite holds_and_pair, !holds_eq_text_notnull; reflexivity).
  rewrite (filter_ext (fun r => negb (holds (and_ _ r)))
                      (fun c => negb (addressed input c)))
    by (intros r; unfold addressed;
        rewrite holds_and_pair, !holds_eq_text_notnull; reflexivity).
  simpl. destruct (length _ =? 0)%nat; reflexivity.
Qed.

(** C7, as stated, fails on the calls that never reach the DELETE: the
    pair below matches no stored caption, yet without a caller the call ends
    in UNAUTHORIZED, and with an empty caption id it ends in the input error
    of the schema ([z.string().min(1)]), not in NOT_FOUND. *)
Lemma deleteMemeCaption_rejected_before_lookup :
  (forall c, In c (memeCaptions (store captions_world)) ->
             addressed (delete_input "c9" "i1") c = false)
  /\ caller anonymous = None
  /\ deleteMemeCaption (delete_input "c9" "i1") anonymous rt0 captions_world
     = (inl (ActionError UNAUTHORIZED
               "You must be signed in to perform this action."), captions_world)
  /\ (forall c, In c (memeCaptions (store captions_world)) ->
                addressed (delete_input "" "i1") c = false)
  /\ deleteMemeCaption (delete_input "" "i1") (signed_in alice) rt0 captions_world
     = (inl (ActionInputError [{| path := ["id"]; custom_message := None |}]),
        captions_world).
Proof.
  split; [simpl; intros c [<-|[<-|[]]]; reflexivity|].
  split; [reflexivity|]. split; [reflexivity|].
  split; [simpl; intros c [<-|[<-|[]]]; reflexivity | reflexivity].
Qed.

(** C7, amended.  For a signed-in caller and an input with non-empty
    caption id and idea id (the input the schema accepts): when no stored
    caption carries both the caption id and the idea id of the request, the
    call ends in NOT_FOUND and the store is as before; the call succeeds
    exactly when some stored caption carried both ids, and then every such
    row is gone; repeating a successful call ends in NOT_FOUND. *)
Theorem deleteMemeCaption_not_found_unless_deleted (input : DeleteMemeCaption.input)
    (context : ActionAPIContext) (rt : Runtime) (w : World) (u : App.User) :
  caller context = Some u ->
  accepts DeleteMemeCaption.schema input = true ->
  ((forall c, In c (memeCaptions (store w)) -> addressed input c = false) ->
   (exists m, fst (deleteMemeCaption input context rt w)
              = inl (ActionError NOT_FOUND m))
   /\ store (snd (deleteMemeCaption input context rt w)) = store w)
  /\ ((exists r, fst (deleteMemeCaption input context rt w) = inr r) <->
      (exists c, In c (memeCaptions (store w)) /\ addressed input c = true)
      /\ memeCaptions (store (snd (deleteMemeCaption input context rt w)))
         = filter (fun c => negb (addressed input c)) (memeCaptions (store w)))
  /\ (forall r w', deleteMemeCaption input context rt w = (inr r, w') ->
      exists m, fst (deleteMemeCaption input context rt w')
                = inl (ActionError NOT_FOUND m)).
Proof.
  intros Hu Hok.
  assert (Hzero : forall rs, (length (filter (addressed input) rs) =? 0)%nat = true
                  <-> forall c, In c rs -> addressed input c = false).
  { intros rs. rewrite Nat.eqb_eq. split.
    - intros Hlen c Hc. destruct (addressed input c) eqn:E; [|reflexivity].
      assert (Hin : In c (filter (addressed input) rs)) by (apply filter_In; auto).
      destruct (filter (addressed input) rs); [contradiction | discriminate].
    - intros Hall.
      destruct (filter (addressed input) rs) as [|c l] eqn:E; [reflexivity|].
      assert (Hin : In c (filter (addressed input) rs)) by (rewrite E; now left).
      apply filter_In in Hin. destruct Hin as [Hc Ha].
      rewrite (Hall c Hc) in Ha. discriminate. }
  split; [|split].
  - intros Hnone. rewrite (deleteMemeCaption_eval input context rt w u Hu Hok).
    destruct (first _) as [idea|].
    + rewrite (proj2 (Hzero _) Hnone). simpl. split; [now eexists|].
      rewrite filter_none_id by exact Hnone. now destruct (store w).
    + simpl. split; [now eexists | reflexivity].
  - rewrite (deleteMemeCaption_eval input context rt w u Hu Hok).
    destruct (first _) as [idea|]; simpl.
    + destruct (length _ =? 0)%nat eqn:E.
      * split; [intros [r Hr]; discriminate|].
        intros [(c & Hc & Ha) _]. rewrite (proj1 (Hzero _) E c Hc) in Ha.
        discriminate.
      * split; [|intros _; now eexists].
        intros _. split; [|reflexivity].
        destruct (filter (addressed input) (memeCaptions (store w))) as [|c l] eqn:F;
          [discriminate|].
        assert (Hin : In c (filter (addressed input) (memeCaptions (store w))))
          by (rewrite F; now left).
        apply filter_In in Hin. now exists c.
    + split; [intros [r Hr]; discriminate|].
      intros [(c & Hc & Ha) Hrows]. exfalso.
      pose proof (filter_length_lt _ (addressed input) _ c Hc Ha) as Hlt.
      rewrite <- Hrows in Hlt. lia.
  - intros r w' Hres.
    rewrite (deleteMemeCaption_eval input context rt w u Hu Hok) in Hres.
    rewrite (deleteMemeCaption_eval input context rt w' u Hu Hok).
    destruct (first _) as [idea|] eqn:Hidea in Hres; [|discriminate].
    destruct (length _ =? 0)%nat in Hres; [discriminate|].
    injection Hres as _ <-. simpl. rewrite Hidea.
    rewrite (proj2 (Hzero _)); [simpl; now eexists|].
    intros c Hc. apply filter_In in Hc. destruct Hc as [_ Hc].
    now apply negb_true_iff in Hc.
Qed.

Lemma deleteMemeCaption_not_found_unless_deleted_witness :
  caller (signed_in alice) = Some alice
  /\ accepts DeleteMemeCaption.schema (delete_input "c1" "i2") = true
  /\ (exists m, fst (deleteMemeCaption (delete_input "c1" "i2") (signed_in alice)
                       rt0 captions_world)
                = inl (ActionError NOT_FOUND m))
  /\ (exists r, fst (deleteMemeCaption (delete_input "c1" "i1") (signed_in alice)
                       rt0 captions_world) = inr r).
Proof.
  split; [reflexivity|]. split; [reflexivity|]. split.
  - apply (proj1 (deleteMemeCaption_not_found_unless_deleted (delete_input "c1" "i2")
                    (signed_in alice) rt0 captions_world alice eq_refl eq_refl)).
    simpl. intros c [<-|[<-|[]]]; reflexivity.
  - apply (proj2 (proj1 (proj2 (deleteMemeCaption_not_found_unless_deleted
                                  (delete_input "c1" "i1") (signed_in alice) rt0
                                  captions_world alice eq_refl eq_refl)))).
    split; [|reflexivity]. exists caption_c1. split; [now left | reflexivity].
Defined.

(** ** listMemeCaptions *)

(** The captions a listing selects. *)
Lemma listMemeCaptions_filters (idea : string) (fav used : bool)
    (c : MemeCaptions.row) :
  holds (and_ (let filters :=
                 [eq_text (notnull MemeCaptions.memeIdeaId) (Some idea)] in
               let filters :=
                 if fav
                 then (filters ++ [eq_bool (notnull MemeCaptions.isFavorite) (Some true)])%list
                 else filters in
               if used
               then (filters ++ [eq_bool (notnull MemeCaptions.isUsed) (Some true)])%list
               else filters) c)
  = (MemeCaptions.memeIdeaId c =? idea)
    && implb fav (MemeCaptions.isFavorite c)
    && implb used (MemeCaptions.isUsed c).
Proof.
  unfold and_.
  destruct fav, used; simpl;
    rewrite ?holds_and3, ?holds_eq_text_notnull, ?holds_eq_bool_true; simpl;
    rewrite ?andb_true_r, ?andb_assoc; reflexivity.
Qed.

Lemma listMemeCaptions_eval (raw : ListMemeCaptions.raw)
    (context : ActionAPIContext) (rt : Runtime) (w : World) (u : App.User) :
  caller context = Some u ->
  accepts ListMemeCaptions.schema raw = true ->
  listMemeCaptions raw context rt w =
  match first (filter (fun i => (MemeIdeas.id i =? ListMemeCaptions.raw_memeIdeaId raw)
                                && (MemeIdeas.userId i =? App.id u))
                      (memeIdeas (store w))) with
  | None => (inl (ActionError NOT_FOUND "Meme idea not found."),
             after_read (SELECT TMemeIdeas) w)
  | Some _ =>
      (let found :=
         filter (fun c =>
                   (MemeCaptions.memeIdeaId c =? ListMemeCaptions.raw_memeIdeaId raw)
                   && implb (nullish (ListMemeCaptions.raw_favoritesOnly raw) false)
                            (MemeCaptions.isFavorite c)
                   && implb (nullish (ListMemeCaptions.raw_usedOnly raw) false)
                            (MemeCaptions.isUsed c))
                (memeCaptions (store w)) in
       inr {| success := true;
              data := {| items := found; total := length found |} |},
       {| store := store w;
          journal := (journal w ++ [SELECT TMemeIdeas]) ++ [SELECT TMemeCaptions] |})
  end.
Proof.
  intros Hu Hok. unfold listMemeCaptions, defineAction.
  unfold accepts in Hok.
  destruct (ListMemeCaptions.schema raw) as [issues|i] eqn:Hs; [discriminate|].
  apply parsed_inr in Hs. destruct Hs as [_ ->].
  unfold listMemeCaptions_handler, bind.
  rewrite (requireUser_some _ _ _ Hu), getOwnedIdea_eval.
  cbn [ListMemeCaptions.memeIdeaId ListMemeCaptions.favoritesOnly
       ListMemeCaptions.usedOnly].
  destruct (first (filter _ (memeIdeas (store w)))) as [idea|]; [|reflexivity].
  unfold db_select, after_read, issue, ret.
  rewrite (matching_ext _ _ _ _ (listMemeCaptions_filters _ _ _)).
  reflexivity.
Qed.

(** C8. The captions [listMemeCaptions] returns are exactly the stored
    captions of the requested idea that are favorites if [favoritesOnly] is
    set and used if [usedOnly] is set: both flags are required when both
    filters are set, one when one is set, none when neither is. *)
Theorem listMemeCaptions_conjunctive_filters (raw : ListMemeCaptions.raw)
    (context : ActionAPIContext) (rt : Runtime) (w w' : World)
    (r : Envelope (Listing MemeCaptions.row)) :
  listMemeCaptions raw context rt w = (inr r, w') ->
  (forall c, In c (items (data r)) <->
     In c (memeCaptions (store w))
     /\ MemeCaptions.memeIdeaId c = ListMemeCaptions.raw_memeIdeaId raw
     /\ (nullish (ListMemeCaptions.raw_favoritesOnly raw) false = true ->
         MemeCaptions.isFavorite c = true)
     /\ (nullish (ListMemeCaptions.raw_usedOnly raw) false = true ->
         MemeCaptions.isUsed c = true))
  /\ total (data r) = length (items (data r))
  /\ store w' = store w.
Proof.
  intros H.
  destruct (caller context) as [u|] eqn:Hu.
  2:{ unfold listMemeCaptions, defineAction in H.
      destruct (ListMemeCaptions.schema raw); [discriminate|].
      unfold listMemeCaptions_handler, bind in H.
      rewrite (requireUser_none _ _ Hu) in H. discriminate. }
  destruct (accepts ListMemeCaptions.schema raw) eqn:Hok.
  2:{ unfold listMemeCaptions, defineAction in H. unfold accepts in Hok.
      destruct (ListMemeCaptions.schema raw); discriminate. }
  rewrite (listMemeCaptions_eval raw context rt w u Hu Hok) in H.
  destruct (first _) as [idea|]; [|discriminate].
  injection H as <- <-. simpl. split; [|split; reflexivity].
  intros c. rewrite filter_In, !andb_true_iff, String.eqb_eq.
  destruct (nullish (ListMemeCaptions.raw_favoritesOnly raw) false),
    (nullish (ListMemeCaptions.raw_usedOnly raw) false),
    (MemeCaptions.isFavorite c), (MemeCaptions.isUsed c); simpl;
    intuition congruence.
Qed.

Lemma listMemeCaptions_conjunctive_filters_witness :
  exists r w',
    listMemeCaptions (list_input "i1" (Some true) (Some true)) (signed_in alice)
      rt0 flags_world = (inr r, w')
    /\ items (data r) = [caption_of "c11" "i1" None true true]
    /\ forall c, In c (items (data r)) ->
                 MemeCaptions.isFavorite c = true /\ MemeCaptions.isUsed c = true.
Proof.
  eexists. eexists. split; [vm_compute; reflexivity|]. split; [reflexivity|].
  intros c Hc.
  apply (proj1 (listMemeCaptions_conjunctive_filters
                  (list_input "i1" (Some true) (Some true)) (signed_in alice)
                  rt0 flags_world _ _ eq_refl)) in Hc.
  destruct Hc as (_ & _ & Hf & Hu). split; [apply Hf | apply Hu]; reflexivity.
Defined.

(** The four combinations of the two filters on one store. *)
Example listMemeCaptions_combinations :
  map MemeCaptions.id
      (match fst (listMemeCaptions (list_input "i1" None None) (signed_in alice)
                    rt0 flags_world) with
       | inr r => items (data r)
       | inl _ => []
       end) = ["c00"; "c10"; "c01"; "c11"]
  /\ map MemeCaptions.id
        (match fst (listMemeCaptions (list_input "i1" (Some true) None)
                      (signed_in alice) rt0 flags_world) with
         | inr r => items (data r)
         | inl _ => []
         end) = ["c10"; "c11"]
  /\ map MemeCaptions.id
        (match fst (listMemeCaptions (list_input "i1" None (Some true))
                      (signed_in alice) rt0 flags_world) with
         | inr r => items (data r)
         | inl _ => []
         end) = ["c01"; "c11"]
  /\ map MemeCaptions.id
        (match fst (listMemeCaptions (list_input "i1" (Some true) (Some true))
                      (signed_in alice) rt0 flags_world) with
         | inr r => items (data r)
         | inl _ => []
         end) = ["c11"].
Proof. repeat split. Qed.

(** ** requireIdentity across [server] *)

(** C9, as stated, fails: an anonymous [updateMemeCaption] request without
    any updatable field is turned down by the input schema, which
    [defineAction] runs before the handler and hence before [requireUser];
    the error is the input error (BAD_REQUEST), not UNAUTHORIZED. *)
Lemma server_anonymous_malformed_is_bad_request :
  caller anonymous = None
  /\ server (CallUpdateMemeCaption (update_without_fields "c1" "i1")) anonymous rt0
       captions_world
     = (inl (ActionInputError [UpdateMemeCaption.refinement_issue]), captions_world)
  /\ code_of (ActionInputError [UpdateMemeCaption.refinement_issue]) <> UNAUTHORIZED.
Proof. repeat split. discriminate. Qed.

(** An action without caller: the schema decides between the input error
    and UNAUTHORIZED, and the world is returned untouched. *)
Lemma defineAction_anonymous (Raw In Out : Type) (sch : Schema Raw In)
    (handler : In -> ActionAPIContext -> Runtime -> Task Out)
    (raw : Raw) (context : ActionAPIContext) (rt : Runtime) (w : World) :
  (forall i, handler i context rt w
             = (inl (ActionError UNAUTHORIZED
                       "You must be signed in to perform this action."), w)) ->
  snd (defineAction sch handler raw context rt w) = w
  /\ (accepts sch raw = true ->
      fst (defineAction sch handler raw context rt w)
      = inl (ActionError UNAUTHORIZED "You must be signed in to perform this action."))
  /\ (accepts sch raw = false ->
      exists issues, sch raw = inl issues
                     /\ fst (defineAction sch handler raw context rt w)
                        = inl (ActionInputError issues)).
Proof.
  intros Hh. unfold defineAction, accepts.
  destruct (sch raw) as [issues|i].
  - split; [reflexivity|]. split; [discriminate|]. intros _. now exists issues.
  - rewrite Hh. split; [reflexivity|]. split; [reflexivity | discriminate].
Qed.

Lemma respond_error (A : Type) (f : A -> Response) (m : Task A) (w : World) :
  snd (respond f m w) = snd (m w)
  /\ forall e, fst (m w) = inl e -> fst (respond f m w) = inl e.
Proof.
  unfold respond, bind, ret. destruct (m w) as [[e|a] w1]; simpl.
  - split; [reflexivity|]. intros e' H. injection H as <-. reflexivity.
  - split; [reflexivity|]. intros e' H. discriminate.
Qed.

(** C9, amended.  Without a caller identity every action of [server]
    returns the world as it received it: same store and same journal, so no
    statement reached the store.  The error is UNAUTHORIZED when the input
    passes the action's schema, and the input error otherwise, because the
    schema is checked before the handler runs. *)
Theorem server_anonymous_short_circuit (req : Request) (context : ActionAPIContext)
    (rt : Runtime) (w : World) :
  caller context = None ->
  snd (server req context rt w) = w
  /\ (well_formed req = true ->
      fst (server req context rt w)
      = inl (ActionError UNAUTHORIZED "You must be signed in to perform this action."))
  /\ (well_formed req = false ->
      exists issues, issues <> []
                     /\ fst (server req context rt w) = inl (ActionInputError issues)).
Proof.
  intros Hu.
  assert (Hwrap : forall (Raw In Out : Type) (sch : Schema Raw In)
                    (handler : In -> ActionAPIContext -> Runtime -> Task Out)
                    (f : Out -> Response) (raw : Raw),
             (forall i, handler i context rt w
                        = (inl (ActionError UNAUTHORIZED
                                  "You must be signed in to perform this action."), w)) ->
             (forall issues, sch raw = inl issues -> issues <> []) ->
             snd (respond f (defineAction sch handler raw context rt) w) = w
             /\ (accepts sch raw = true ->
                 fst (respond f (defineAction sch handler raw context rt) w)
                 = inl (ActionError UNAUTHORIZED
                          "You must be signed in to perform this action."))
             /\ (accepts sch raw = false ->
                 exists issues, issues <> []
                   /\ fst (respond f (defineAction sch handler raw context rt) w)
                      = inl (ActionInputError issues))).
  { intros Raw In Out sch handler f raw Hh Hne.
    destruct (defineAction_anonymous Raw In Out sch handler raw context rt w Hh)
      as (Hw & Hok & Hbad).
    destruct (respond_error Out f (defineAction sch handler raw context rt) w)
      as (Hsnd & Hfst).
    split; [now rewrite Hsnd|]. split.
    - intros Ha. apply Hfst. now apply Hok.
    - intros Ha. destruct (Hbad Ha) as (issues & Hs & He).
      exists issues. split; [now apply Hne|]. now apply Hfst. }
  assert (Hparsed : forall (A : Type) (given found : list ZodIssue) (a : A),
             parsed given a = inl found -> found <> []).
  { intros A given found a H. apply parsed_inl in H. destruct H as [-> H]. exact H. }
  destruct req as [i| |i| |i|i|i|i]; simpl;
    apply Hwrap;
    try (intros i0; unfold createTemplate_handler, listTemplates_handler,
           createMemeIdea_handler, listMemeIdeas_handler, createMemeCaption_handler,
           updateMemeCaption_handler, deleteMemeCaption_handler,
           listMemeCaptions_handler, bind;
         now rewrite (requireUser_none _ _ Hu));
    try (intros issues H; now apply Hparsed in H);
    intros issues H; discriminate.
Qed.

Lemma server_anonymous_short_circuit_witness :
  caller anonymous = None
  /\ snd (server (CallDeleteMemeCaption (delete_input "c1" "i1")) anonymous rt0
            captions_world) = captions_world
  /\ fst (server (CallDeleteMemeCaption (delete_input "c1" "i1")) anonymous rt0
            captions_world)
     = inl (ActionError UNAUTHORIZED "You must be signed in to perform this action.").
Proof.
  split; [reflexivity|].
  pose proof (server_anonymous_short_circuit
                (CallDeleteMemeCaption (delete_input "c1" "i1")) anonymous rt0
                captions_world eq_refl) as (Hw & Hok & _).
  split; [exact Hw | apply Hok; reflexivity].
Defined.

(** ** The primary keys stay unique

    Every action of [server] keeps the primary key of each table unique, so
    the uniqueness assumed above holds in every store reached from the empty
    one. *)

Section Keys.
Variable R : Type.
Variable key : R -> string.

Lemma NoDup_map_filter (p : R -> bool) (rs : list R) :
  NoDup (map key rs) -> NoDup (map key (filter p rs)).
Proof.
  induction rs as [|x rs IH]; simpl; intros ND; [constructor|].
  inversion ND as [|k ks Hnotin ND']; subst.
  destruct (p x); simpl; [|now apply IH].
  constructor; [|now apply IH].
  intros Hin. apply Hnotin. apply in_map_iff in Hin.
  destruct Hin as (y & Ey & Hy). apply filter_In in Hy.
  apply in_map_iff. exists y. tauto.
Qed.

Lemma NoDup_map_snoc (rs : list R) (r : R) :
  NoDup (map key rs) -> ~ In (key r) (map key rs) ->
  NoDup (map key (rs ++ [r])).
Proof.
  induction rs as [|x rs IH]; simpl; intros ND Hfresh.
  - constructor; [tauto | constructor].
  - inversion ND as [|k ks Hnotin ND']; subst.
    constructor.
    + rewrite map_app, in_app_iff. simpl. intros [H|[H|[]]]; [tauto|].
      apply Hfresh. now left.
    + apply IH; [exact ND'|]. intros H. apply Hfresh. now right.
Qed.

Lemma map_key_rewrite (f : R -> R) (p : R -> bool) (rs : list R) :
  (forall x, key (f x) = key x) ->
  map key (map (fun x => if p x then f x else x) rs) = map key rs.
Proof.
  intros Hf. rewrite map_map. apply map_ext. intros x.
  destruct (p x); [apply Hf | reflexivity].
Qed.

End Keys.

Lemma preserves_ret (A : Type) (a : A) : preserves (ret a).
Proof. intros w H. exact H. Qed.

Lemma preserves_throw (A : Type) (e : Thrown) : preserves (@throw A e).
Proof. intros w H. exact H. Qed.

Lemma preserves_bind (A B : Type) (m : Task A) (k : A -> Task B) :
  preserves m -> (forall a, preserves (k a)) -> preserves (bind m k).
Proof.
  intros Hm Hk w Hc. unfold bind. specialize (Hm w Hc).
  destruct (m w) as [[e|a] w1]; simpl in *; [exact Hm|].
  now apply Hk.
Qed.

Lemma preserves_select (R : Type) (T : Table R) (c : Condition R) :
  preserves (db_select T c).
Proof. intros w H. exact H. Qed.

Lemma preserves_requireUser (context : ActionAPIContext) :
  preserves (requireUser context).
Proof.
  unfold requireUser. destruct (match locals context with
                                | Some l => App.user l
                                | None => None
                                end); [apply preserves_ret | apply preserves_throw].
Qed.

Lemma preserves_getOwnedIdea (ideaId userId : string) :
  preserves (getOwnedIdea ideaId userId).
Proof.
  apply preserves_bind; [apply preserves_select|].
  intros found. destruct (first found); [apply preserves_ret | apply preserves_throw].
Qed.

Lemma preserves_ensureTemplateAccessible (templateId userId : string) :
  preserves (ensureTemplateAccessible templateId userId).
Proof.
  apply preserves_bind; [apply preserves_select|].
  intros found. destruct (first found) as [t|]; [|apply preserves_throw].
  destruct (truthy_opt _ && _); [apply preserves_throw | apply preserves_ret].
Qed.

Lemma preserves_insert_template (r : MemeTemplates.row) :
  preserves (db_insert MemeTemplatesT r).
Proof.
  intros w (Ht & Hi & Hc). unfold db_insert.
  destruct (violates _ r (store w)) eqn:E; simpl; [now repeat split|].
  apply violates_false in E. destruct E as [E _]. repeat split; auto.
  unfold pk_unique; simpl. now apply NoDup_map_snoc.
Qed.

Lemma preserves_insert_idea (r : MemeIdeas.row) :
  preserves (db_insert MemeIdeasT r).
Proof.
  intros w (Ht & Hi & Hc). unfold db_insert.
  destruct (violates _ r (store w)) eqn:E; simpl; [now repeat split|].
  apply violates_false in E. destruct E as [E _]. repeat split; auto.
  unfold pk_unique; simpl. now apply NoDup_map_snoc.
Qed.

Lemma preserves_insert_caption (r : MemeCaptions.row) :
  preserves (db_insert MemeCaptionsT r).
Proof.
  intros w (Ht & Hi & Hc). unfold db_insert.
  destruct (violates _ r (store w)) eqn:E; simpl; [now repeat split|].
  apply violates_false in E. destruct E as [E _]. repeat split; auto.
  unfold pk_unique; simpl. now apply NoDup_map_snoc.
Qed.

Lemma preserves_update_caption (input : UpdateMemeCaption.input)
    (c : Condition MemeCaptions.row) :
  preserves (db_update MemeCaptionsT (caption_set input) c).
Proof.
  intros w (Ht & Hi & Hc). unfold db_update; simpl. repeat split; auto.
  unfold pk_unique; simpl.
  rewrite (map_key_rewrite _ MemeCaptions.id (caption_set input)
             (fun r => holds (c r))); [exact Hc | reflexivity].
Qed.

Lemma preserves_delete_caption (c : Condition MemeCaptions.row) :
  preserves (db_delete MemeCaptionsT c).
Proof.
  intros w (Ht & Hi & Hc). unfold db_delete; simpl. repeat split; auto.
  unfold pk_unique; simpl. now apply NoDup_map_filter.
Qed.

Lemma preserves_defineAction (Raw In Out : Type) (sch : Schema Raw In)
    (handler : In -> ActionAPIContext -> Runtime -> Task Out)
    (raw : Raw) (context : ActionAPIContext) (rt : Runtime) :
  (forall i, preserves (handler i context rt)) ->
  preserves (defineAction sch handler raw context rt).
Proof.
  intros H. unfold defineAction. destruct (sch raw); [apply preserves_throw | apply H].
Qed.

Ltac preserves_step :=
  first
    [ apply preserves_ret | apply preserves_throw | apply preserves_select
    | apply preserves_requireUser | apply preserves_getOwnedIdea
    | apply preserves_ensureTemplateAccessible
    | apply preserves_insert_template | apply preserves_insert_idea
    | apply preserves_insert_caption | apply preserves_update_caption
    | apply preserves_delete_caption
    | apply preserves_bind; [|intros ?] ].

Lemma server_preserves_consistency (req : Request) (context : ActionAPIContext)
    (rt : Runtime) :
  preserves (server req context rt).
Proof.
  destruct req; simpl; unfold respond;
    (apply preserves_bind; [|intros ?; apply preserves_ret]);
    apply preserves_defineAction; intros input.
  - unfold createTemplate_handler. repeat preserves_step.
  - unfold listTemplates_handler. repeat preserves_step.
  - unfold createMemeIdea_handler. repeat preserves_step.
    destruct (CreateMemeIdea.templateId input) as [t|]; [|preserves_step].
    destruct (truthy t); repeat preserves_step.
  - unfold listMemeIdeas_handler. repeat preserves_step.
  - unfold createMemeCaption_handler. repeat preserves_step.
  - unfold updateMemeCaption_handler. repeat preserves_step.
    destruct (first _); repeat preserves_step.
  - unfold deleteMemeCaption_handler. repeat preserves_step.
    destruct (_ =? _)%nat; repeat preserves_step.
  - unfold listMemeCaptions_handler. repeat preserves_step.
Qed.

Lemma empty_world_consistent : consistent (store empty_world).
Proof. repeat split; constructor. Qed.

(** * Further properties of the handlers *)

(** ** Reads, writes and failures *)

Lemma readonly_ret (A : Type) (a : A) : readonly (ret a).
Proof. intros w. reflexivity. Qed.

Lemma readonly_throw (A : Type) (e : Thrown) : readonly (@throw A e).
Proof. intros w. reflexivity. Qed.

Lemma readonly_select (R : Type) (T : Table R) (c : Condition R) :
  readonly (db_select T c).
Proof. intros w. reflexivity. Qed.

Lemma readonly_bind (A B : Type) (m : Task A) (k : A -> Task B) :
  readonly m -> (forall a, readonly (k a)) -> readonly (bind m k).
Proof.
  intros Hm Hk w. unfold bind. specialize (Hm w).
  destruct (m w) as [[e|a] w1]; simpl in *; [exact Hm|].
  now rewrite Hk.
Qed.

Lemma readonly_requireUser (context : ActionAPIContext) :
  readonly (requireUser context).
Proof.
  unfold requireUser. destruct (match locals context with
                                | Some l => App.user l
                                | None => None
                                end); [apply readonly_ret | apply readonly_throw].
Qed.

Lemma readonly_getOwnedIdea (ideaId userId : string) :
  readonly (getOwnedIdea ideaId userId).
Proof.
  apply readonly_bind; [apply readonly_select|].
  intros found. destruct (first found); [apply readonly_ret | apply readonly_throw].
Qed.

Lemma readonly_ensureTemplateAccessible (templateId userId : string) :
  readonly (ensureTemplateAccessible templateId userId).
Proof.
  apply readonly_bind; [apply readonly_select|].
  intros found. destruct (first found) as [t|]; [|apply readonly_throw].
  destruct (truthy_opt _ && _); [apply readonly_throw | apply readonly_ret].
Qed.

Ltac readonly_step :=
  first
    [ apply readonly_ret | apply readonly_throw | apply readonly_select
    | apply readonly_requireUser | apply readonly_getOwnedIdea
    | apply readonly_ensureTemplateAccessible
    | apply readonly_bind; [|intros ?] ].

Lemma readonly_atomic (A : Type) (m : Task A) : readonly m -> atomic m.
Proof. intros H w e _. apply H. Qed.

Lemma atomic_bind (A B : Type) (m : Task A) (k : A -> Task B) :
  readonly m -> (forall a, atomic (k a)) -> atomic (bind m k).
Proof.
  intros Hm Hk w e. unfold bind. specialize (Hm w).
  destruct (m w) as [[e1|a] w1] eqn:E; simpl in *; [intros _; exact Hm|].
  intros He. rewrite (Hk a w1 e He). exact Hm.
Qed.

Lemma atomic_insert (R A : Type) (T : Table R) (r : R) (f : list R -> A) :
  atomic (bind (db_insert T r) (fun inserted => ret (f inserted))).
Proof.
  intros w e. unfold bind, db_insert, ret.
  destruct (violates _ _ _); simpl; [reflexivity | discriminate].
Qed.

Lemma atomic_update (R A : Type) (T : Table R) (g : R -> R) (c : Condition R)
    (f : list R -> A) :
  atomic (bind (db_update T g c) (fun updated => ret (f updated))).
Proof. intros w e. unfold bind, db_update, ret. simpl. discriminate. Qed.

Lemma filter_negb_all (R : Type) (p : R -> bool) (rs : list R) :
  length (filter p rs) = 0 -> filter (fun r => negb (p r)) rs = rs.
Proof.
  induction rs as [|x rs IH]; simpl; [reflexivity|].
  destruct (p x); simpl; [discriminate|]. intros H. f_equal. now apply IH.
Qed.

Lemma atomic_delete_caption (A : Type) (c : Condition MemeCaptions.row)
    (e : Thrown) (a : A) :
  atomic (bind (db_delete MemeCaptionsT c)
               (fun result => if (rowsAffected result =? 0)%nat
                              then throw e else ret a)).
Proof.
  intros w e'. unfold bind, db_delete, ret, throw, matching. simpl.
  destruct (length _ =? 0)%nat eqn:E; simpl; [|discriminate].
  intros _. apply Nat.eqb_eq in E. rewrite (filter_negb_all _ _ _ E).
  now destruct (store w).
Qed.

Lemma atomic_defineAction (Raw In Out : Type) (sch : Schema Raw In)
    (handler : In -> ActionAPIContext -> Runtime -> Task Out)
    (raw : Raw) (context : ActionAPIContext) (rt : Runtime) :
  (forall i, atomic (handler i context rt)) ->
  atomic (defineAction sch handler raw context rt).
Proof.
  intros H. unfold defineAction.
  destruct (sch raw); [apply readonly_atomic, readonly_throw | apply H].
Qed.

Lemma atomic_respond (A : Type) (f : A -> Response) (m : Task A) :
  atomic m -> atomic (respond f m).
Proof.
  intros H w e. unfold respond, bind, ret. specialize (H w).
  destruct (m w) as [[e1|a] w1]; simpl in *; [|discriminate].
  intros _. now apply (H e1).
Qed.

Lemma atomic_handlers (req : Request) (context : ActionAPIContext) (rt : Runtime) :
  atomic (server req context rt).
Proof.
  destruct req; simpl; apply atomic_respond, atomic_defineAction; intros input.
  - unfold createTemplate_handler.
    apply atomic_bind; [apply readonly_requireUser | intros user].
    apply atomic_insert.
  - apply readonly_atomic. unfold listTemplates_handler. repeat readonly_step.
  - unfold createMemeIdea_handler.
    apply atomic_bind; [apply readonly_requireUser | intros user].
    apply atomic_bind; [|intros _; apply atomic_insert].
    destruct (CreateMemeIdea.templateId input) as [t|]; [|apply readonly_ret].
    destruct (truthy t); repeat readonly_step.
  - apply readonly_atomic. unfold listMemeIdeas_handler. repeat readonly_step.
  - unfold createMemeCaption_handler.
    apply atomic_bind; [apply readonly_requireUser | intros user].
    apply atomic_bind; [apply readonly_getOwnedIdea | intros idea].
    apply atomic_insert.
  - unfold updateMemeCaption_handler.
    apply atomic_bind; [apply readonly_requireUser | intros user].
    apply atomic_bind; [apply readonly_getOwnedIdea | intros idea].
    apply atomic_bind; [apply readonly_select | intros found].
    destruct (first found); [apply atomic_update|].
    apply readonly_atomic, readonly_throw.
  - unfold deleteMemeCaption_handler.
    apply atomic_bind; [apply readonly_requireUser | intros user].
    apply atomic_bind; [apply readonly_getOwnedIdea | intros idea].
    apply atomic_delete_caption.
  - apply readonly_atomic. unfold listMemeCaptions_handler. repeat readonly_step.
Qed.

(** X1. No partial writes: whenever an action of [server] ends in an error,
    whatever the error, the store is exactly what it was before the
    request. *)
Theorem server_error_leaves_store (req : Request) (context : ActionAPIContext)
    (rt : Runtime) (w : World) (e : Thrown) :
  fst (server req context rt w) = inl e ->
  store (snd (server req context rt w)) = store w.
Proof. intros H. exact (atomic_handlers req context rt w e H). Qed.

Lemma server_error_leaves_store_witness :
  fst (server (CallDeleteMemeCaption (delete_input "c1" "i2")) (signed_in bob) rt0
         captions_world)
  = inl (ActionError NOT_FOUND "Meme caption not found.")
  /\ store (snd (server (CallDeleteMemeCaption (delete_input "c1" "i2"))
                   (signed_in bob) rt0 captions_world))
     = store captions_world.
Proof.
  split; [reflexivity|].
  apply (server_error_leaves_store (CallDeleteMemeCaption (delete_input "c1" "i2"))
           (signed_in bob) rt0 captions_world
           (ActionError NOT_FOUND "Meme caption not found.")).
  reflexivity.
Defined.

(** ** Listings *)

Lemma reads_only_ret (A : Type) (a : A) : reads_only (ret a).
Proof.
  intros w. split; [reflexivity|]. exists []. split; [|reflexivity].
  simpl. now rewrite app_nil_r.
Qed.

Lemma reads_only_throw (A : Type) (e : Thrown) : reads_only (@throw A e).
Proof.
  intros w. split; [reflexivity|]. exists []. split; [|reflexivity].
  simpl. now rewrite app_nil_r.
Qed.

Lemma reads_only_select (R : Type) (T : Table R) (c : Condition R) :
  reads_only (db_select T c).
Proof.
  intros w. split; [reflexivity|]. exists [SELECT (tname T)]. now split.
Qed.

Lemma reads_only_bind (A B : Type) (m : Task A) (k : A -> Task B) :
  reads_only m -> (forall a, reads_only (k a)) -> reads_only (bind m k).
Proof.
  intros Hm Hk w. unfold bind. destruct (Hm w) as (Hs & l & Hj & Hl).
  destruct (m w) as [[e|a] w1]; simpl in *.
  - split; [exact Hs|]. now exists l.
  - destruct (Hk a w1) as (Hs' & l' & Hj' & Hl').
    split; [congruence|]. exists (l ++ l')%list. split.
    + rewrite Hj', Hj. now rewrite app_assoc.
    + rewrite forallb_app, Hl, Hl'. reflexivity.
Qed.

Lemma reads_only_requireUser (context : ActionAPIContext) :
  reads_only (requireUser context).
Proof.
  unfold requireUser. destruct (match locals context with
                                | Some l => App.user l
                                | None => None
                                end); [apply reads_only_ret | apply reads_only_throw].
Qed.

Lemma reads_only_getOwnedIdea (ideaId userId : string) :
  reads_only (getOwnedIdea ideaId userId).
Proof.
  apply reads_only_bind; [apply reads_only_select|].
  intros found. destruct (first found); [apply reads_only_ret | apply reads_only_throw].
Qed.

Lemma reads_only_defineAction (Raw In Out : Type) (sch : Schema Raw In)
    (handler : In -> ActionAPIContext -> Runtime -> Task Out)
    (raw : Raw) (context : ActionAPIContext) (rt : Runtime) :
  (forall i, reads_only (handler i context rt)) ->
  reads_only (defineAction sch handler raw context rt).
Proof.
  intros H. unfold defineAction. destruct (sch raw); [apply reads_only_throw | apply H].
Qed.

Ltac reads_only_step :=
  first
    [ apply reads_only_ret | apply reads_only_throw | apply reads_only_select
    | apply reads_only_requireUser | apply reads_only_getOwnedIdea
    | apply reads_only_bind; [|intros ?] ].

(** X3. The three listing actions never write: for every input, caller and
    store, [listTemplates], [listMemeIdeas] and [listMemeCaptions] return the
    store unchanged, and every statement they add to the journal is a
    SELECT. *)
Theorem listings_never_write (context : ActionAPIContext) (rt : Runtime)
    (raw : ListMemeCaptions.raw) (w : World) :
  (store (snd (listTemplates tt context rt w)) = store w
   /\ exists l, journal (snd (listTemplates tt context rt w)) = (journal w ++ l)%list
                /\ forallb is_select l = true)
  /\ (store (snd (listMemeIdeas tt context rt w)) = store w
      /\ exists l, journal (snd (listMemeIdeas tt context rt w))
                   = (journal w ++ l)%list
                   /\ forallb is_select l = true)
  /\ (store (snd (listMemeCaptions raw context rt w)) = store w
      /\ exists l, journal (snd (listMemeCaptions raw context rt w))
                   = (journal w ++ l)%list
                   /\ forallb is_select l = true).
Proof.
  split; [|split].
  - apply (reads_only_defineAction unit unit _ no_input listTemplates_handler).
    intros i. unfold listTemplates_handler. repeat reads_only_step.
  - apply (reads_only_defineAction unit unit _ no_input listMemeIdeas_handler).
    intros i. unfold listMemeIdeas_handler. repeat reads_only_step.
  - apply (reads_only_defineAction _ _ _ ListMemeCaptions.schema
             listMemeCaptions_handler).
    intros i. unfold listMemeCaptions_handler. repeat reads_only_step.
Qed.

(** ** Templates and ideas are never rewritten *)

Lemma append_only_readonly (A : Type) (m : Task A) : readonly m -> append_only m.
Proof.
  intros H w. exists [], []. rewrite (H w), !app_nil_r. simpl. auto.
Qed.

Lemma append_only_bind (A B : Type) (m : Task A) (k : A -> Task B) :
  readonly m -> (forall a, append_only (k a)) -> append_only (bind m k).
Proof.
  intros Hm Hk w. unfold bind. specialize (Hm w).
  destruct (m w) as [[e|a] w1]; simpl in *.
  - exists [], []. rewrite Hm, !app_nil_r. simpl. auto.
  - destruct (Hk a w1) as (ts & ideas & Ht & Hi & Hlen).
    exists ts, ideas. rewrite Ht, Hi, Hm. auto.
Qed.

Lemma append_only_captions (A B : Type) (m : Task A) (k : A -> Task B) :
  (forall w, memeTemplates (store (snd (m w))) = memeTemplates (store w)
             /\ memeIdeas (store (snd (m w))) = memeIdeas (store w)) ->
  (forall a, readonly (k a)) ->
  append_only (bind m k).
Proof.
  intros Hm Hk w. unfold bind. destruct (Hm w) as [Ht Hi].
  destruct (m w) as [[e|a] w1]; simpl in *; exists [], [];
    rewrite ?(Hk a w1), Ht, Hi, !app_nil_r; simpl; auto.
Qed.

Lemma append_only_defineAction (Raw In Out : Type) (sch : Schema Raw In)
    (handler : In -> ActionAPIContext -> Runtime -> Task Out)
    (raw : Raw) (context : ActionAPIContext) (rt : Runtime) :
  (forall i, append_only (handler i context rt)) ->
  append_only (defineAction sch handler raw context rt).
Proof.
  intros H. unfold defineAction.
  destruct (sch raw); [apply append_only_readonly, readonly_throw | apply H].
Qed.

Lemma append_only_respond (A : Type) (f : A -> Response) (m : Task A) :
  append_only m -> append_only (respond f m).
Proof.
  intros H w. unfold respond, bind, ret. specialize (H w).
  destruct (m w) as [[e1|a] w1]; simpl in *; exact H.
Qed.

Lemma append_only_server (req : Request) (context : ActionAPIContext) (rt : Runtime) :
  append_only (server req context rt).
Proof.
  destruct req; simpl; apply append_only_respond, append_only_defineAction;
    intros input.
  - unfold createTemplate_handler.
    apply append_only_bind; [apply readonly_requireUser | intros user].
    intros w. unfold bind, db_insert, ret.
    destruct (violates _ _ _); simpl.
    + exists [], []. rewrite !app_nil_r. simpl. auto.
    + eexists [_], []. rewrite app_nil_r. simpl. auto.
  - apply append_only_readonly. unfold listTemplates_handler. repeat readonly_step.
  - unfold createMemeIdea_handler.
    apply append_only_bind; [apply readonly_requireUser | intros user].
    apply append_only_bind.
    { destruct (CreateMemeIdea.templateId input) as [t|]; [|apply readonly_ret].
      destruct (truthy t); repeat readonly_step. }
    intros _ w. unfold bind, db_insert, ret.
    destruct (violates _ _ _); simpl.
    + exists [], []. rewrite !app_nil_r. simpl. auto.
    + eexists [], [_]. rewrite app_nil_r. simpl. auto.
  - apply append_only_readonly. unfold listMemeIdeas_handler. repeat readonly_step.
  - unfold createMemeCaption_handler.
    apply append_only_bind; [apply readonly_requireUser | intros user].
    apply append_only_bind; [apply readonly_getOwnedIdea | intros idea].
    apply append_only_captions; [|intros a; apply readonly_ret].
    intros w. unfold db_insert. destruct (violates _ _ _); simpl; auto.
  - unfold updateMemeCaption_handler.
    apply append_only_bind; [apply readonly_requireUser | intros user].
    apply append_only_bind; [apply readonly_getOwnedIdea | intros idea].
    apply append_only_bind; [apply readonly_select | intros found].
    destruct (first found); [|apply append_only_readonly, readonly_throw].
    apply append_only_captions; [|intros a; apply readonly_ret].
    intros w. simpl. auto.
  - unfold deleteMemeCaption_handler.
    apply append_only_bind; [apply readonly_requireUser | intros user].
    apply append_only_bind; [apply readonly_getOwnedIdea | intros idea].
    apply append_only_captions.
    + intros w. simpl. auto.
    + intros a. destruct (_ =? _)%nat; [apply readonly_throw | apply readonly_ret].
  - apply append_only_readonly. unfold listMemeCaptions_handler.
    repeat readonly_step.
Qed.

(** X4. Templates and ideas are append-only: along every session the
    templates and the ideas present at the start stay where they are,
    unchanged, and at most one row is appended to the two tables per
    request.  No action rewrites or removes a template or an idea. *)
Theorem run_appends_templates_and_ideas (calls : list Call) (w : World) :
  exists ts ideas,
    memeTemplates (store (run calls w)) = (memeTemplates (store w) ++ ts)%list
    /\ memeIdeas (store (run calls w)) = (memeIdeas (store w) ++ ideas)%list
    /\ length ts + length ideas <= length calls.
Proof.
  revert w. induction calls as [|[[req context] rt] rest IH]; intros w.
  - exists [], []. simpl. rewrite !app_nil_r. auto.
  - simpl. destruct (append_only_server req context rt w)
      as (ts1 & is1 & Ht1 & Hi1 & Hlen1).
    destruct (IH (snd (server req context rt w))) as (ts2 & is2 & Ht2 & Hi2 & Hlen2).
    exists (ts1 ++ ts2)%list, (is1 ++ is2)%list.
    rewrite Ht2, Hi2, Ht1, Hi1, <- !app_assoc, !length_app.
    repeat split. lia.
Qed.

(** ** createTemplate and listTemplates *)

Lemma min1_accepts (field s : string) : s <> "" -> min1 field s = [].
Proof. unfold min1. destruct s; [now intros [] | reflexivity]. Qed.

Lemma createTemplate_eval (input : CreateTemplate.input) (context : ActionAPIContext)
    (rt : Runtime) (w : World) (u : App.User) :
  caller context = Some u -> CreateTemplate.name input <> "" ->
  createTemplate input context rt w =
  match db_insert MemeTemplatesT (new_template input u rt) w with
  | (inl e, w') => (inl e, w')
  | (inr inserted, w') => (inr {| success := true; data := first inserted |}, w')
  end.
Proof.
  intros Hu Hname.
  unfold createTemplate, defineAction, CreateTemplate.schema.
  rewrite (min1_accepts _ _ Hname). simpl.
  unfold createTemplate_handler, bind. rewrite (requireUser_some _ _ _ Hu).
  fold (new_template input u rt).
  destruct (db_insert MemeTemplatesT (new_template input u rt) w) as [[e|ins] w1];
    reflexivity.
Qed.

(** What a successful [createTemplate] did. *)
Lemma createTemplate_success (input : CreateTemplate.input)
    (context : ActionAPIContext) (rt : Runtime) (w w' : World) (u : App.User)
    (r : Envelope (option MemeTemplates.row)) :
  caller context = Some u ->
  createTemplate input context rt w = (inr r, w') ->
  r = {| success := true; data := Some (new_template input u rt) |}
  /\ w' = {| store := put MemeTemplatesT
                        (memeTemplates (store w) ++ [new_template input u rt])
                        (store w);
             journal := journal w ++ [INSERT TMemeTemplates] |}
  /\ ~ In (randomUUID rt) (map MemeTemplates.id (memeTemplates (store w))).
Proof.
  intros Hu H.
  assert (Hname : CreateTemplate.name input <> "").
  { intros E. unfold createTemplate, defineAction, CreateTemplate.schema in H.
    rewrite E in H. discriminate. }
  rewrite (createTemplate_eval input context rt w u Hu Hname) in H.
  unfold db_insert in H. simpl in H.
  destruct (violates _ _ _) eqn:E in H; [discriminate|].
  injection H as <- <-. repeat split.
  now apply violates_false in E.
Qed.

(** X5. [createTemplate] by a signed-in caller with a non-empty name and a
    fresh id appends one template and returns it: the row carries the
    generated id, the caller as owner, the input's name, description, image
    location and layout, [isSystem = false], and the same instant as
    creation and update time.  Nothing else in the store changes and the
    only statement issued is the INSERT. *)
Theorem createTemplate_stores_owned_template (input : CreateTemplate.input)
    (context : ActionAPIContext) (rt : Runtime) (w : World) (u : App.User) :
  caller context = Some u ->
  CreateTemplate.name input <> "" ->
  ~ In (randomUUID rt) (map MemeTemplates.id (memeTemplates (store w))) ->
  exists t,
    createTemplate input context rt w
    = (inr {| success := true; data := Some t |},
       {| store := {| memeTemplates := memeTemplates (store w) ++ [t];
                      memeIdeas := memeIdeas (store w);
                      memeCaptions := memeCaptions (store w) |};
          journal := journal w ++ [INSERT TMemeTemplates] |})
    /\ MemeTemplates.id t = randomUUID rt
    /\ MemeTemplates.userId t = Some (App.id u)
    /\ MemeTemplates.name t = CreateTemplate.name input
    /\ MemeTemplates.description t = CreateTemplate.description input
    /\ MemeTemplates.imageUrl t = CreateTemplate.imageUrl input
    /\ MemeTemplates.layoutType t = CreateTemplate.layoutType input
    /\ MemeTemplates.isSystem t = false
    /\ MemeTemplates.createdAt t = now rt
    /\ MemeTemplates.updatedAt t = MemeTemplates.createdAt t.
Proof.
  intros Hu Hname Hfresh. exists (new_template input u rt).
  rewrite (createTemplate_eval input context rt w u Hu Hname).
  rewrite (db_insert_fresh _ MemeTemplatesT (new_template input u rt) w Hfresh
             eq_refl).
  repeat split.
Qed.

Lemma createTemplate_stores_owned_template_witness :
  exists t,
    createTemplate (template_input "Drake") (signed_in alice) (rt_of "t-1")
      empty_world
    = (inr {| success := true; data := Some t |},
       {| store := {| memeTemplates := [t]; memeIdeas := []; memeCaptions := [] |};
          journal := [INSERT TMemeTemplates] |})
    /\ MemeTemplates.userId t = Some "alice"
    /\ MemeTemplates.isSystem t = false.
Proof.
  destruct (createTemplate_stores_owned_template (template_input "Drake")
              (signed_in alice) (rt_of "t-1") empty_world alice eq_refl
              ltac:(discriminate) ltac:(simpl; tauto))
    as (t & Heq & _ & Hown & _ & _ & _ & _ & Hsys & _).
  exists t. split; [exact Heq|]. split; [exact Hown | exact Hsys].
Defined.

(** X6. A template just created is listed for its creator and for nobody
    else, and on a store with unique template ids the creator resolves it
    through [ensureTemplateAccessible] while any other caller is refused
    with FORBIDDEN (the creator's id being non-empty). *)
Theorem createTemplate_then_visible_to_creator_only (input : CreateTemplate.input)
    (context : ActionAPIContext) (rt : Runtime) (w w' : World) (u : App.User)
    (r : Envelope (option MemeTemplates.row)) :
  caller context = Some u ->
  createTemplate input context rt w = (inr r, w') ->
  exists t,
    data r = Some t
    /\ (forall context' rt' u', caller context' = Some u' ->
        exists r' w'', listTemplates tt context' rt' w' = (inr r', w'')
                       /\ (In t (items (data r')) <-> App.id u' = App.id u))
    /\ (pk_unique MemeTemplatesT (store w) ->
        fst (ensureTemplateAccessible (MemeTemplates.id t) (App.id u) w') = inr t
        /\ forall other, App.id u <> "" -> other <> App.id u ->
             fst (ensureTemplateAccessible (MemeTemplates.id t) other w')
             = inl (ActionError FORBIDDEN "You do not have access to this template.")).
Proof.
  intros Hu H.
  destruct (createTemplate_success input context rt w w' u r Hu H)
    as (-> & -> & Hfresh).
  exists (new_template input u rt). split; [reflexivity|].
  assert (Hin : In (new_template input u rt)
                   (memeTemplates (store w) ++ [new_template input u rt])).
  { apply in_or_app. right. now left. }
  split.
  - intros context' rt' u' Hu'. eexists. eexists. split.
    + apply (listTemplates_eval context' rt' _ u' Hu').
    + simpl. rewrite filter_In. simpl. rewrite String.eqb_eq.
      split; [intros [_ E]; now symmetry | intros E; split; [exact Hin | now symmetry]].
  - intros ND.
    set (w1 := {| store := put MemeTemplatesT
                             (memeTemplates (store w) ++ [new_template input u rt])
                             (store w);
                  journal := journal w ++ [INSERT TMemeTemplates] |}).
    assert (ND' : pk_unique MemeTemplatesT (store w1)).
    { unfold pk_unique. simpl. now apply NoDup_map_snoc. }
    destruct (ensureTemplateAccessible_by_key (randomUUID rt) (App.id u) w1 ND')
      as (_ & _ & Hok & _).
    split.
    + apply Hok; [exact Hin | reflexivity | right; right; reflexivity].
    + intros other Hne Hother.
      apply (proj1 (proj2 (ensureTemplateAccessible_by_key (randomUUID rt) other
                             w1 ND'))
               (new_template input u rt) (App.id u)); auto.
Qed.

Lemma createTemplate_then_visible_to_creator_only_witness :
  exists r w',
    createTemplate (template_input "Drake") (signed_in alice) (rt_of "t-1")
      empty_world = (inr r, w')
    /\ exists t,
         data r = Some t
         /\ fst (ensureTemplateAccessible (MemeTemplates.id t) "bob" w')
            = inl (ActionError FORBIDDEN "You do not have access to this template.").
Proof.
  eexists. eexists. split; [vm_compute; reflexivity|].
  destruct (createTemplate_then_visible_to_creator_only (template_input "Drake")
              (signed_in alice) (rt_of "t-1") empty_world _ alice _ eq_refl eq_refl)
    as (t & Hdata & _ & Hacc).
  exists t. split; [exact Hdata|].
  apply (proj2 (Hacc ltac:(repeat constructor)) "bob"); discriminate.
Defined.

(** ** listMemeIdeas and createMemeIdea *)

Lemma listMemeIdeas_eval (context : ActionAPIContext) (rt : Runtime) (w : World)
    (u : App.User) :
  caller context = Some u ->
  listMemeIdeas tt context rt w =
  (let found := filter (fun i => MemeIdeas.userId i =? App.id u)
                       (memeIdeas (store w)) in
   inr {| success := true;
          data := {| items := found; total := length found |} |},
   after_read (SELECT TMemeIdeas) w).
Proof.
  intros Hu.
  unfold listMemeIdeas, defineAction, no_input, listMemeIdeas_handler, bind.
  rewrite (requireUser_some _ _ _ Hu).
  unfold db_select, after_read, issue, ret; simpl.
  rewrite (matching_ext _ _ (fun i => MemeIdeas.userId i =? App.id u)).
  - reflexivity.
  - intros r. apply holds_eq_text_notnull.
Qed.

(** X7. For a signed-in caller [listMemeIdeas] returns, in store order,
    exactly the stored ideas whose owner is the caller: no idea of another
    user is ever disclosed, and none of the caller's is left out.  [total]
    is the number of items, and the call issues one SELECT and writes
    nothing. *)
Theorem listMemeIdeas_returns_own_ideas (context : ActionAPIContext) (rt : Runtime)
    (w : World) (u : App.User) :
  caller context = Some u ->
  exists r,
    listMemeIdeas tt context rt w = (inr r, after_read (SELECT TMemeIdeas) w)
    /\ (forall i, In i (items (data r)) <->
          In i (memeIdeas (store w)) /\ MemeIdeas.userId i = App.id u)
    /\ (forall i j l1 l2 l3,
          items (data r) = (l1 ++ i :: l2 ++ j :: l3)%list ->
          exists k1 k2 k3, memeIdeas (store w) = (k1 ++ i :: k2 ++ j :: k3)%list)
    /\ total (data r) = length (items (data r)).
Proof.
  intros Hu. eexists. split; [apply (listMemeIdeas_eval context rt w u Hu)|].
  simpl. split; [|split; [|reflexivity]].
  - intros i. rewrite filter_In, String.eqb_eq. tauto.
  - generalize (memeIdeas (store w)) as rs.
    intros rs i j l1 l2 l3.
    set (p := fun x => MemeIdeas.userId x =? App.id u).
    revert l1. induction rs as [|x rs IH]; simpl; intros l1 H.
    + destruct l1; discriminate.
    + destruct (p x) eqn:E.
      * destruct l1 as [|y l1]; simpl in H.
        -- injection H as <- H.
           assert (Hj : In j (filter p rs)).
           { rewrite H. apply in_or_app. right. now left. }
           apply filter_In in Hj. destruct Hj as [Hj _].
           apply in_split in Hj. destruct Hj as (k2 & k3 & ->).
           now exists [], k2, k3.
        -- injection H as <- H. destruct (IH l1 H) as (k1 & k2 & k3 & ->).
           now exists (x :: k1), k2, k3.
      * destruct (IH l1 H) as (k1 & k2 & k3 & ->).
        now exists (x :: k1), k2, k3.
Qed.

Lemma listMemeIdeas_returns_own_ideas_witness :
  exists r,
    listMemeIdeas tt (signed_in bob) rt0 captions_world
    = (inr r, after_read (SELECT TMemeIdeas) captions_world)
    /\ items (data r) = [idea_of "i2" "bob"].
Proof.
  destruct (listMemeIdeas_returns_own_ideas (signed_in bob) rt0 captions_world bob
              eq_refl) as (r & Heq & _).
  exists r. split; [exact Heq|].
  vm_compute in Heq. injection Heq as <-. reflexivity.
Defined.

(** What a successful [createMemeIdea] did. *)
Lemma createMemeIdea_success (input : CreateMemeIdea.input)
    (context : ActionAPIContext) (rt : Runtime) (w w' : World) (u : App.User)
    (r : Envelope (option MemeIdeas.row)) :
  caller context = Some u ->
  createMemeIdea input context rt w = (inr r, w') ->
  r = {| success := true; data := Some (new_idea input u rt) |}
  /\ store w' = put MemeIdeasT (memeIdeas (store w) ++ [new_idea input u rt])
                    (store w)
  /\ ~ In (randomUUID rt) (map MemeIdeas.id (memeIdeas (store w))).
Proof.
  intros Hu H.
  unfold createMemeIdea, defineAction, CreateMemeIdea.schema,
    createMemeIdea_handler, bind in H.
  rewrite (requireUser_some _ _ _ Hu) in H.
  fold (new_idea input u rt) in H.
  assert (Hins : forall w1, store w1 = store w ->
            match db_insert MemeIdeasT (new_idea input u rt) w1 with
            | (inl e, w2) => (inl e, w2)
            | (inr inserted, w2) => ret {| success := true; data := first inserted |} w2
            end = (inr r, w') ->
            r = {| success := true; data := Some (new_idea input u rt) |}
            /\ store w' = put MemeIdeasT
                            (memeIdeas (store w) ++ [new_idea input u rt]) (store w)
            /\ ~ In (randomUUID rt) (map MemeIdeas.id (memeIdeas (store w)))).
  { intros w1 Hw1 Hres. unfold db_insert, ret in Hres. simpl in Hres.
    rewrite Hw1 in Hres.
    destruct (violates _ _ _) eqn:E in Hres; [discriminate|].
    injection Hres as <- <-. simpl. repeat split.
    now apply violates_false in E. }
  destruct (CreateMemeIdea.templateId input) as [tid|] eqn:Htid.
  - destruct (truthy tid).
    + destruct (ensureTemplateAccessible tid (App.id u) w) as [[e|t] w1] eqn:E;
        simpl in H; [discriminate|].
      apply (Hins w1); [|exact H].
      pose proof (readonly_ensureTemplateAccessible tid (App.id u) w) as Hro.
      now rewrite E in Hro.
    + simpl in H. now apply (Hins w).
  - simpl in H. now apply (Hins w).
Qed.

(** X8. An idea just created belongs to its creator alone: the returned row
    carries the caller as owner and the supplied template reference, context
    and topic; it is appended to the ideas; on a store with unique idea ids
    [getOwnedIdea] returns it to the creator and answers NOT_FOUND to every
    other user; and it shows up in a user's [listMemeIdeas] exactly when
    that user is the creator. *)
Theorem createMemeIdea_then_owned_by_creator (input : CreateMemeIdea.input)
    (context : ActionAPIContext) (rt : Runtime) (w w' : World) (u : App.User)
    (r : Envelope (option MemeIdeas.row)) :
  caller context = Some u ->
  pk_unique MemeIdeasT (store w) ->
  createMemeIdea input context rt w = (inr r, w') ->
  exists i,
    data r = Some i
    /\ MemeIdeas.id i = randomUUID rt
    /\ MemeIdeas.userId i = App.id u
    /\ MemeIdeas.templateId i = CreateMemeIdea.templateId input
    /\ MemeIdeas.context i = CreateMemeIdea.context input
    /\ MemeIdeas.topic i = CreateMemeIdea.topic input
    /\ memeIdeas (store w') = (memeIdeas (store w) ++ [i])%list
    /\ fst (getOwnedIdea (MemeIdeas.id i) (App.id u) w') = inr i
    /\ (forall other, other <> App.id u ->
        fst (getOwnedIdea (MemeIdeas.id i) other w')
        = inl (ActionError NOT_FOUND "Meme idea not found."))
    /\ (forall context' rt' u', caller context' = Some u' ->
        exists r' w'', listMemeIdeas tt context' rt' w' = (inr r', w'')
                       /\ (In i (items (data r')) <-> App.id u' = App.id u)).
Proof.
  intros Hu ND H.
  destruct (createMemeIdea_success input context rt w w' u r Hu H)
    as (-> & Hstore & Hfresh).
  set (i := new_idea input u rt) in *.
  assert (Hrows : memeIdeas (store w') = (memeIdeas (store w) ++ [i])%list)
    by now rewrite Hstore.
  assert (Hin : In i (memeIdeas (store w')))
    by (rewrite Hrows; apply in_or_app; right; now left).
  assert (ND' : NoDup (map MemeIdeas.id (memeIdeas (store w'))))
    by (rewrite Hrows; now apply NoDup_map_snoc).
  exists i. repeat split; try reflexivity; try exact Hrows.
  - rewrite getOwnedIdea_eval. simpl.
    rewrite first_filter_unique
      with (key := MemeIdeas.id) (k := randomUUID rt) (x := i); auto.
    + intros y Hy. apply andb_true_iff in Hy. now apply String.eqb_eq.
    + simpl. now rewrite !String.eqb_refl.
  - intros other Hother. rewrite getOwnedIdea_eval. simpl.
    rewrite first_filter_none; [reflexivity|].
    intros x Hx.
    destruct ((MemeIdeas.id x =? randomUUID rt) && (MemeIdeas.userId x =? other))
      eqn:E; [|reflexivity].
    apply andb_true_iff in E. rewrite !String.eqb_eq in E. destruct E as [Ex Eo].
    exfalso. apply Hother. rewrite <- Eo.
    assert (x = i) as ->; [|reflexivity].
    apply key_injective with (key := MemeIdeas.id) (rs := memeIdeas (store w')); auto.
  - intros context' rt' u' Hu'. eexists. eexists. split.
    + apply (listMemeIdeas_eval context' rt' w' u' Hu').
    + simpl. rewrite filter_In, String.eqb_eq. simpl.
      split; [intros [_ E]; now symmetry | intros E; split; [exact Hin | now symmetry]].
Qed.

Lemma createMemeIdea_then_owned_by_creator_witness :
  exists r w',
    createMemeIdea (idea_input None) (signed_in alice) (rt_of "i-9") alice_world
    = (inr r, w')
    /\ exists i, data r = Some i
                 /\ fst (getOwnedIdea (MemeIdeas.id i) "bob" w')
                    = inl (ActionError NOT_FOUND "Meme idea not found.")
                 /\ fst (getOwnedIdea (MemeIdeas.id i) "alice" w') = inr i.
Proof.
  eexists. eexists. split; [vm_compute; reflexivity|].
  destruct (createMemeIdea_then_owned_by_creator (idea_input None) (signed_in alice)
              (rt_of "i-9") alice_world _ alice _ eq_refl ltac:(solve_nodup) eq_refl)
    as (i & Hdata & _ & _ & _ & _ & _ & _ & Hown & Hhide & _).
  exists i. split; [exact Hdata|]. split; [|exact Hown].
  apply Hhide. discriminate.
Defined.

(** ** createMemeCaption *)

Lemma accepts_inr (Raw In : Type) (sch : Schema Raw In) (raw : Raw) :
  accepts sch raw = true -> exists i, sch raw = inr i.
Proof. unfold accepts. destruct (sch raw) as [|i]; [discriminate | now exists i]. Qed.

Lemma createMemeCaption_eval (input : CreateMemeCaption.input)
    (context : ActionAPIContext) (rt : Runtime) (w : World) (u : App.User) :
  caller context = Some u ->
  accepts CreateMemeCaption.schema input = true ->
  createMemeCaption input context rt w =
  match first (filter (owned_idea (CreateMemeCaption.memeIdeaId input) (App.id u))
                      (memeIdeas (store w))) with
  | None => (inl (ActionError NOT_FOUND "Meme idea not found."),
             after_read (SELECT TMemeIdeas) w)
  | Some _ =>
      match db_insert MemeCaptionsT (new_caption input rt)
                      (after_read (SELECT TMemeIdeas) w) with
      | (inl e, w') => (inl e, w')
      | (inr inserted, w') => (inr {| success := true; data := first inserted |}, w')
      end
  end.
Proof.
  intros Hu Hok. unfold createMemeCaption, defineAction.
  destruct (accepts_inr _ _ _ _ Hok) as (i & Hs). rewrite Hs.
  apply parsed_inr in Hs. destruct Hs as [_ ->].
  unfold createMemeCaption_handler, bind.
  rewrite (requireUser_some _ _ _ Hu), getOwnedIdea_eval.
  fold (owned_idea (CreateMemeCaption.memeIdeaId input) (App.id u)).
  destruct (first (filter _ (memeIdeas (store w)))) as [idea|]; [|reflexivity].
  fold (new_caption input rt).
  destruct (db_insert MemeCaptionsT (new_caption input rt) _) as [[e|ins] w1];
    reflexivity.
Qed.

Lemma accepts_createMemeCaption (input : CreateMemeCaption.input) :
  accepts CreateMemeCaption.schema input = true
  <-> CreateMemeCaption.memeIdeaId input <> "".
Proof.
  unfold accepts, CreateMemeCaption.schema, min1.
  destruct (CreateMemeCaption.memeIdeaId input); simpl; split;
    intros H; try discriminate; try reflexivity. now contradiction H.
Qed.

Lemma first_filter_exists (R : Type) (p : R -> bool) (rs : list R) (x : R) :
  In x rs -> p x = true -> exists y, first (filter p rs) = Some y.
Proof.
  intros Hx Hp. assert (Hin : In x (filter p rs)) by (apply filter_In; auto).
  destruct (filter p rs) as [|y l]; [contradiction|]. now exists y.
Qed.

(** X9. [createMemeCaption] by a signed-in caller for a non-empty idea id:
    when the caller owns no idea with that id (it does not exist or belongs
    to somebody else) the call ends in NOT_FOUND after the ownership SELECT
    and no caption is written; when the caller owns the idea and the
    generated id is fresh, one caption is appended and returned, with the
    text fields as supplied (absent ones NULL) and with [isFavorite] and
    [isUsed] false unless the input sets them. *)
Theorem createMemeCaption_needs_owned_idea (input : CreateMemeCaption.input)
    (context : ActionAPIContext) (rt : Runtime) (w : World) (u : App.User) :
  caller context = Some u ->
  CreateMemeCaption.memeIdeaId input <> "" ->
  ((forall i, In i (memeIdeas (store w)) ->
      ~ (MemeIdeas.id i = CreateMemeCaption.memeIdeaId input
         /\ MemeIdeas.userId i = App.id u)) ->
   createMemeCaption input context rt w
   = (inl (ActionError NOT_FOUND "Meme idea not found."),
      after_read (SELECT TMemeIdeas) w))
  /\ (forall i, In i (memeIdeas (store w)) ->
      MemeIdeas.id i = CreateMemeCaption.memeIdeaId input ->
      MemeIdeas.userId i = App.id u ->
      ~ In (randomUUID rt) (map MemeCaptions.id (memeCaptions (store w))) ->
      exists c,
        createMemeCaption input context rt w
        = (inr {| success := true; data := Some c |},
           {| store := {| memeTemplates := memeTemplates (store w);
                          memeIdeas := memeIdeas (store w);
                          memeCaptions := memeCaptions (store w) ++ [c] |};
              journal := (journal w ++ [SELECT TMemeIdeas])
                         ++ [INSERT TMemeCaptions] |})
        /\ MemeCaptions.id c = randomUUID rt
        /\ MemeCaptions.memeIdeaId c = CreateMemeCaption.memeIdeaId input
        /\ MemeCaptions.variantLabel c = CreateMemeCaption.variantLabel input
        /\ MemeCaptions.topText c = CreateMemeCaption.topText input
        /\ MemeCaptions.bottomText c = CreateMemeCaption.bottomText input
        /\ MemeCaptions.extraText c = CreateMemeCaption.extraText input
        /\ MemeCaptions.isFavorite c
           = match CreateMemeCaption.isFavorite input with
             | Some b => b
             | None => false
             end
        /\ MemeCaptions.isUsed c
           = match CreateMemeCaption.isUsed input with
             | Some b => b
             | None => false
             end
        /\ MemeCaptions.createdAt c = now rt).
Proof.
  intros Hu Hid.
  pose proof (proj2 (accepts_createMemeCaption input) Hid) as Hok.
  rewrite (createMemeCaption_eval input context rt w u Hu Hok).
  split.
  - intros Hnone. rewrite first_filter_none; [reflexivity|].
    intros x Hx. unfold owned_idea.
    destruct ((MemeIdeas.id x =? _) && (MemeIdeas.userId x =? _)) eqn:E;
      [|reflexivity].
    apply andb_true_iff in E. rewrite !String.eqb_eq in E.
    now contradiction (Hnone x Hx).
  - intros i Hi Hiid Hown Hfresh.
    destruct (first_filter_exists _
                (owned_idea (CreateMemeCaption.memeIdeaId input) (App.id u))
                (memeIdeas (store w)) i Hi) as (y & ->).
    { unfold owned_idea. rewrite Hiid, Hown, !String.eqb_refl. reflexivity. }
    exists (new_caption input rt).
    rewrite (db_insert_fresh _ MemeCaptionsT (new_caption input rt)
               (after_read (SELECT TMemeIdeas) w) Hfresh).
    + repeat split.
    + simpl. apply has_id_In. rewrite <- Hiid. now apply in_map.
Qed.

Lemma createMemeCaption_needs_owned_idea_witness :
  createMemeCaption (caption_input "i1" (Some "x")) (signed_in bob) (rt_of "c-9")
    captions_world
  = (inl (ActionError NOT_FOUND "Meme idea not found."),
     after_read (SELECT TMemeIdeas) captions_world)
  /\ exists c,
       fst (createMemeCaption (caption_input "i1" (Some "x")) (signed_in alice)
              (rt_of "c-9") captions_world)
       = inr {| success := true; data := Some c |}
       /\ MemeCaptions.isFavorite c = false.
Proof.
  split.
  - apply (proj1 (createMemeCaption_needs_owned_idea (caption_input "i1" (Some "x"))
                    (signed_in bob) (rt_of "c-9") captions_world bob eq_refl
                    ltac:(discriminate))).
    simpl. intros i [<-|[<-|[]]] [H1 H2]; discriminate.
  - destruct (proj2 (createMemeCaption_needs_owned_idea
                       (caption_input "i1" (Some "x")) (signed_in alice)
                       (rt_of "c-9") captions_world alice eq_refl
                       ltac:(discriminate))
                (idea_of "i1" "alice") ltac:(simpl; now left) eq_refl eq_refl
                ltac:(simpl; intuition discriminate))
      as (c & Heq & _ & _ & _ & _ & _ & _ & Hfav & _).
    exists c. split; [now rewrite Heq | exact Hfav].
Defined.

(** ** The caption actions behind an idea *)

Lemma updateMemeCaption_eval (input : UpdateMemeCaption.input)
    (context : ActionAPIContext) (rt : Runtime) (w : World) (u : App.User) :
  caller context = Some u ->
  accepts UpdateMemeCaption.schema input = true ->
  updateMemeCaption input context rt w =
  match first (filter (owned_idea (UpdateMemeCaption.memeIdeaId input) (App.id u))
                      (memeIdeas (store w))) with
  | None => (inl (ActionError NOT_FOUND "Meme idea not found."),
             after_read (SELECT TMemeIdeas) w)
  | Some _ =>
      match first (filter (targeted input) (memeCaptions (store w))) with
      | None => (inl (ActionError NOT_FOUND "Meme caption not found."),
                 {| store := store w;
                    journal := (journal w ++ [SELECT TMemeIdeas])
                               ++ [SELECT TMemeCaptions] |})
      | Some _ =>
          (inr {| success := true;
                  data := first (map (caption_set input)
                            (filter (fun c => MemeCaptions.id c
                                              =? UpdateMemeCaption.id input)
                                    (memeCaptions (store w)))) |},
           {| store := put MemeCaptionsT
                (map (fun c => if MemeCaptions.id c =? UpdateMemeCaption.id input
                               then caption_set input c else c)
                     (memeCaptions (store w))) (store w);
              journal := ((journal w ++ [SELECT TMemeIdeas])
                          ++ [SELECT TMemeCaptions]) ++ [UPDATE TMemeCaptions] |})
      end
  end.
Proof.
  intros Hu Hok. unfold updateMemeCaption, defineAction.
  destruct (accepts_inr _ _ _ _ Hok) as (i & Hs). rewrite Hs.
  apply parsed_inr in Hs. destruct Hs as [_ ->].
  unfold updateMemeCaption_handler, bind.
  rewrite (requireUser_some _ _ _ Hu), getOwnedIdea_eval.
  fold (owned_idea (UpdateMemeCaption.memeIdeaId input) (App.id u)).
  destruct (first (filter _ (memeIdeas (store w)))) as [idea|]; [|reflexivity].
  unfold db_select, db_update, after_read, issue, ret.
  cbn [fst snd store journal rows tname MemeCaptionsT].
  rewrite (matching_ext _ _ (targeted input))
    by (intros r; unfold targeted;
        rewrite holds_and_pair, !holds_eq_text_notnull; reflexivity).
  destruct (first (filter (targeted input) (memeCaptions (store w))))
    as [existing|]; [|reflexivity].
  rewrite (matching_ext _ _
             (fun c => MemeCaptions.id c =? UpdateMemeCaption.id input))
    by (intros r; apply holds_eq_text_notnull).
  f_equal. f_equal. f_equal. apply map_ext. intros c.
  now rewrite holds_eq_text_notnull.
Qed.

Lemma accepts_updateMemeCaption (input : UpdateMemeCaption.input) :
  accepts UpdateMemeCaption.schema input = true
  <-> UpdateMemeCaption.id input <> "" /\ UpdateMemeCaption.memeIdeaId input <> ""
      /\ UpdateMemeCaption.refinement input = true.
Proof.
  unfold accepts, UpdateMemeCaption.schema, min1.
  destruct (UpdateMemeCaption.id input), (UpdateMemeCaption.memeIdeaId input),
    (UpdateMemeCaption.refinement input); simpl; split; intros H;
    try discriminate; try reflexivity; try (repeat split; discriminate);
    destruct H as (H1 & H2 & H3); try discriminate;
    try (now contradiction H1); try (now contradiction H2).
Qed.

Lemma accepts_deleteMemeCaption (input : DeleteMemeCaption.input) :
  accepts DeleteMemeCaption.schema input = true
  <-> DeleteMemeCaption.id input <> "" /\ DeleteMemeCaption.memeIdeaId input <> "".
Proof.
  unfold accepts, DeleteMemeCaption.schema, min1.
  destruct (DeleteMemeCaption.id input), (DeleteMemeCaption.memeIdeaId input);
    simpl; split; intros H; try discriminate; try reflexivity;
    try (split; discriminate);
    destruct H as (H1 & H2); try (now contradiction H1); try (now contradiction H2).
Qed.

Lemma owned_idea_none (ideaId userId : string) (rs : list MemeIdeas.row) :
  (forall i, In i rs -> ~ (MemeIdeas.id i = ideaId /\ MemeIdeas.userId i = userId)) ->
  first (filter (owned_idea ideaId userId) rs) = None.
Proof.
  intros H. apply first_filter_none. intros x Hx. unfold owned_idea.
  destruct ((MemeIdeas.id x =? ideaId) && (MemeIdeas.userId x =? userId)) eqn:E;
    [|reflexivity].
  apply andb_true_iff in E. rewrite !String.eqb_eq in E.
  now contradiction (H x Hx).
Qed.

(** X10. Captions are reachable only through an idea of the caller: when a
    signed-in caller sends a well-formed [createMemeCaption],
    [updateMemeCaption], [deleteMemeCaption] or [listMemeCaptions] request
    for an idea id that matches no idea of the caller (no such idea, or
    somebody else's), the call ends in NOT_FOUND with the message of a
    missing idea; the only statement issued is the ownership SELECT, so no
    caption is read, written or removed. *)
Theorem caption_actions_hidden_behind_idea (req : Request)
    (context : ActionAPIContext) (rt : Runtime) (w : World) (u : App.User)
    (ideaId : string) :
  caller context = Some u ->
  well_formed req = true ->
  caption_idea_of req = Some ideaId ->
  (forall i, In i (memeIdeas (store w)) ->
     ~ (MemeIdeas.id i = ideaId /\ MemeIdeas.userId i = App.id u)) ->
  server req context rt w
  = (inl (ActionError NOT_FOUND "Meme idea not found."),
     after_read (SELECT TMemeIdeas) w).
Proof.
  intros Hu Hwf Hidea Hnone.
  pose proof (owned_idea_none ideaId (App.id u) (memeIdeas (store w)) Hnone) as Hf.
  destruct req as [i| |i| |i|i|i|i]; simpl in Hidea; try discriminate;
    injection Hidea as <-; simpl in Hwf; simpl; unfold respond, bind.
  - rewrite (createMemeCaption_eval i context rt w u Hu Hwf), Hf. reflexivity.
  - rewrite (updateMemeCaption_eval i context rt w u Hu Hwf), Hf. reflexivity.
  - rewrite (deleteMemeCaption_eval i context rt w u Hu Hwf).
    fold (owned_idea (DeleteMemeCaption.memeIdeaId i) (App.id u)).
    rewrite Hf. reflexivity.
  - rewrite (listMemeCaptions_eval i context rt w u Hu Hwf).
    fold (owned_idea (ListMemeCaptions.raw_memeIdeaId i) (App.id u)).
    rewrite Hf. reflexivity.
Qed.

Lemma caption_actions_hidden_behind_idea_witness :
  server (CallListMemeCaptions (list_input "i1" None None)) (signed_in bob) rt0
    captions_world
  = (inl (ActionError NOT_FOUND "Meme idea not found."),
     after_read (SELECT TMemeIdeas) captions_world)
  /\ server (CallUpdateMemeCaption (mark_favorite "c1" "i1")) (signed_in bob) rt0
       captions_world
     = (inl (ActionError NOT_FOUND "Meme idea not found."),
        after_read (SELECT TMemeIdeas) captions_world).
Proof.
  assert (H : forall i, In i (memeIdeas (store captions_world)) ->
                ~ (MemeIdeas.id i = "i1" /\ MemeIdeas.userId i = App.id bob)).
  { simpl. intros i [<-|[<-|[]]] [H1 H2]; discriminate. }
  split.
  - exact (caption_actions_hidden_behind_idea
             (CallListMemeCaptions (list_input "i1" None None)) (signed_in bob) rt0
             captions_world bob "i1" eq_refl eq_refl eq_refl H).
  - exact (caption_actions_hidden_behind_idea
             (CallUpdateMemeCaption (mark_favorite "c1" "i1")) (signed_in bob) rt0
             captions_world bob "i1" eq_refl eq_refl eq_refl H).
Defined.

(** X11. [updateMemeCaption] on an idea the caller owns ends in NOT_FOUND
    with the message of a missing caption exactly when no stored caption
    carries both the caption id and the idea id of the request; then two
    SELECTs were issued and nothing was written.  In particular a caption
    id that exists under another idea is not updated through this idea. *)
Theorem updateMemeCaption_needs_caption_of_idea (input : UpdateMemeCaption.input)
    (context : ActionAPIContext) (rt : Runtime) (w : World) (u : App.User)
    (idea : MemeIdeas.row) :
  caller context = Some u ->
  accepts UpdateMemeCaption.schema input = true ->
  In idea (memeIdeas (store w)) ->
  MemeIdeas.id idea = UpdateMemeCaption.memeIdeaId input ->
  MemeIdeas.userId idea = App.id u ->
  (updateMemeCaption input context rt w
   = (inl (ActionError NOT_FOUND "Meme caption not found."),
      {| store := store w;
         journal := (journal w ++ [SELECT TMemeIdeas]) ++ [SELECT TMemeCaptions] |})
   <-> forall c, In c (memeCaptions (store w)) ->
         ~ (MemeCaptions.id c = UpdateMemeCaption.id input
            /\ MemeCaptions.memeIdeaId c = UpdateMemeCaption.memeIdeaId input))
  /\ ((exists r w', updateMemeCaption input context rt w = (inr r, w'))
      <-> exists c, In c (memeCaptions (store w))
                    /\ MemeCaptions.id c = UpdateMemeCaption.id input
                    /\ MemeCaptions.memeIdeaId c = UpdateMemeCaption.memeIdeaId input).
Proof.
  intros Hu Hok Hidea Hid Hown.
  rewrite (updateMemeCaption_eval input context rt w u Hu Hok).
  destruct (first_filter_exists _
              (owned_idea (UpdateMemeCaption.memeIdeaId input) (App.id u))
              (memeIdeas (store w)) idea Hidea) as (y & ->).
  { unfold owned_idea. rewrite Hid, Hown, !String.eqb_refl. reflexivity. }
  assert (Ht : forall c, targeted input c = true <->
                 MemeCaptions.id c = UpdateMemeCaption.id input
                 /\ MemeCaptions.memeIdeaId c = UpdateMemeCaption.memeIdeaId input).
  { intros c. unfold targeted. now rewrite andb_true_iff, !String.eqb_eq. }
  destruct (first (filter (targeted input) (memeCaptions (store w)))) as [c0|] eqn:E.
  - apply first_filter_some in E. destruct E as [Hc0 Hp]. apply Ht in Hp.
    split; split.
    + discriminate.
    + intros Hnone. now contradiction (Hnone c0 Hc0).
    + intros _. now exists c0.
    + intros _. eexists. eexists. reflexivity.
  - assert (Hnone : forall c, In c (memeCaptions (store w)) ->
                      targeted input c = false).
    { intros c Hc. destruct (targeted input c) eqn:Hp; [|reflexivity].
      destruct (first_filter_exists _ (targeted input) _ c Hc Hp) as (z & Hz).
      congruence. }
    split; split.
    + intros _ c Hc Hboth. apply Ht in Hboth. rewrite (Hnone c Hc) in Hboth.
      discriminate.
    + reflexivity.
    + intros (r & w' & H). discriminate.
    + intros (c & Hc & Hboth). exfalso.
      pose proof (proj2 (Ht c) Hboth) as Hp. rewrite (Hnone c Hc) in Hp.
      discriminate.
Qed.

Lemma updateMemeCaption_needs_caption_of_idea_witness :
  updateMemeCaption (mark_favorite "c2" "i1") (signed_in alice) rt0 captions_world
  = (inl (ActionError NOT_FOUND "Meme caption not found."),
     {| store := store captions_world;
        journal := [SELECT TMemeIdeas; SELECT TMemeCaptions] |}).
Proof.
  apply (proj2 (proj1 (updateMemeCaption_needs_caption_of_idea
                         (mark_favorite "c2" "i1") (signed_in alice) rt0
                         captions_world alice (idea_of "i1" "alice") eq_refl eq_refl
                         ltac:(simpl; now left) eq_refl eq_refl))).
  simpl. intros c [<-|[<-|[]]] [H1 H2]; discriminate.
Defined.

(** ** Input validation *)

Lemma accepts_createTemplate (input : CreateTemplate.input) :
  accepts CreateTemplate.schema input = false <-> CreateTemplate.name input = "".
Proof.
  unfold accepts, CreateTemplate.schema, min1.
  destruct (CreateTemplate.name input); simpl; split; intros H;
    try discriminate; reflexivity.
Qed.

Lemma accepts_listMemeCaptions (raw : ListMemeCaptions.raw) :
  accepts ListMemeCaptions.schema raw = false
  <-> ListMemeCaptions.raw_memeIdeaId raw = "".
Proof.
  unfold accepts, ListMemeCaptions.schema, min1.
  destruct (ListMemeCaptions.raw_memeIdeaId raw); simpl; split; intros H;
    try discriminate; reflexivity.
Qed.

Lemma not_accepted (b : bool) (P : Prop) : (b = true <-> P) -> ~ P -> b = false.
Proof. intros [H _] HP. destruct b; [|reflexivity]. now contradiction HP; apply H. Qed.

(** An action whose schema rejects the input throws the issues and returns
    the world as it got it. *)
Lemma defineAction_rejects (Raw In Out : Type) (sch : Schema Raw In)
    (handler : In -> ActionAPIContext -> Runtime -> Task Out)
    (f : Out -> Response)
    (raw : Raw) (context : ActionAPIContext) (rt : Runtime) (w : World) :
  accepts sch raw = false ->
  exists issues, sch raw = inl issues
                 /\ respond f (defineAction sch handler raw context rt) w
                    = (inl (ActionInputError issues), w).
Proof.
  unfold accepts, respond, bind, defineAction, throw.
  destruct (sch raw) as [issues|i]; [|discriminate].
  intros _. now exists issues.
Qed.

(** X12. A request with an empty required string (the [name] of a
    template, the [memeIdeaId] or [id] of a caption request) or an update
    that names none of its six fields is turned down with the input error,
    with at least one issue, and the world is returned untouched, whoever
    the caller is: nothing is read from or written to the store. *)
Theorem server_rejects_malformed_input (req : Request) (context : ActionAPIContext)
    (rt : Runtime) (w : World) :
  match req with
  | CallCreateTemplate i => CreateTemplate.name i = ""
  | CallListTemplates => False
  | CallCreateMemeIdea _ => False
  | CallListMemeIdeas => False
  | CallCreateMemeCaption i => CreateMemeCaption.memeIdeaId i = ""
  | CallUpdateMemeCaption i =>
      UpdateMemeCaption.id i = "" \/ UpdateMemeCaption.memeIdeaId i = ""
      \/ (UpdateMemeCaption.variantLabel i = None
          /\ UpdateMemeCaption.topText i = None
          /\ UpdateMemeCaption.bottomText i = None
          /\ UpdateMemeCaption.extraText i = None
          /\ UpdateMemeCaption.isFavorite i = None
          /\ UpdateMemeCaption.isUsed i = None)
  | CallDeleteMemeCaption i =>
      DeleteMemeCaption.id i = "" \/ DeleteMemeCaption.memeIdeaId i = ""
  | CallListMemeCaptions i => ListMemeCaptions.raw_memeIdeaId i = ""
  end ->
  exists issues,
    issues <> []
    /\ server req context rt w = (inl (ActionInputError issues), w).
Proof.
  assert (Hgen : forall (Raw In Out : Type) (sch : Schema Raw In)
                   (handler : In -> ActionAPIContext -> Runtime -> Task Out)
                   (f : Out -> Response) (raw : Raw),
             (forall issues, sch raw = inl issues -> issues <> []) ->
             accepts sch raw = false ->
             exists issues,
               issues <> []
               /\ respond f (defineAction sch handler raw context rt) w
                  = (inl (ActionInputError issues), w)).
  { intros Raw In Out sch handler f raw Hne Hrej.
    destruct (defineAction_rejects Raw In Out sch handler f raw context rt w Hrej)
      as (issues & Hs & Heq).
    exists issues. split; [now apply Hne | exact Heq]. }
  assert (Hparsed : forall (A : Type) (given found : list ZodIssue) (a : A),
             parsed given a = inl found -> found <> []).
  { intros A given found a H. apply parsed_inl in H. destruct H as [-> H]. exact H. }
  destruct req as [i| |i| |i|i|i|i]; simpl; intros Hbad; try contradiction;
    apply Hgen; try (intros issues H; now apply Hparsed in H).
  - now apply accepts_createTemplate.
  - apply (not_accepted _ _ (accepts_createMemeCaption i)). tauto.
  - apply (not_accepted _ _ (accepts_updateMemeCaption i)).
    intros (H1 & H2 & H3).
    destruct Hbad as [Hbad|[Hbad|(E1 & E2 & E3 & E4 & E5 & E6)]]; try contradiction.
    unfold UpdateMemeCaption.refinement in H3.
    rewrite E1, E2, E3, E4, E5, E6 in H3. discriminate.
  - apply (not_accepted _ _ (accepts_deleteMemeCaption i)). tauto.
  - now apply accepts_listMemeCaptions.
Qed.

Lemma server_rejects_malformed_input_witness :
  exists issues,
    issues <> []
    /\ server (CallCreateTemplate (template_input "")) anonymous rt0 captions_world
       = (inl (ActionInputError issues), captions_world).
Proof.
  exact (server_rejects_malformed_input (CallCreateTemplate (template_input ""))
           anonymous rt0 captions_world eq_refl).
Defined.

(** ** A caption from creation to update and deletion *)

(** What a successful [createMemeCaption] did. *)
Lemma createMemeCaption_success (input : CreateMemeCaption.input)
    (context : ActionAPIContext) (rt : Runtime) (w w' : World) (u : App.User)
    (r : Envelope (option MemeCaptions.row)) :
  caller context = Some u ->
  createMemeCaption input context rt w = (inr r, w') ->
  CreateMemeCaption.memeIdeaId input <> ""
  /\ (exists idea, first (filter (owned_idea (CreateMemeCaption.memeIdeaId input)
                                             (App.id u))
                                 (memeIdeas (store w))) = Some idea)
  /\ r = {| success := true; data := Some (new_caption input rt) |}
  /\ w' = {| store := put MemeCaptionsT
                        (memeCaptions (store w) ++ [new_caption input rt]) (store w);
             journal := (journal w ++ [SELECT TMemeIdeas])
                        ++ [INSERT TMemeCaptions] |}
  /\ ~ In (randomUUID rt) (map MemeCaptions.id (memeCaptions (store w))).
Proof.
  intros Hu H.
  destruct (accepts CreateMemeCaption.schema input) eqn:Hok.
  2:{ unfold createMemeCaption, defineAction in H. unfold accepts in Hok.
      destruct (CreateMemeCaption.schema input); discriminate. }
  rewrite (createMemeCaption_eval input context rt w u Hu Hok) in H.
  split; [now apply accepts_createMemeCaption|].
  destruct (first _) as [idea|]; [|discriminate].
  split; [now exists idea|].
  unfold db_insert in H. simpl in H.
  destruct (violates _ _ _) eqn:E in H; [discriminate|].
  injection H as <- <-. repeat split. now apply violates_false in E.
Qed.

Lemma filter_snoc_fresh (R : Type) (key : R -> string) (p : R -> bool)
    (rs : list R) (c : R) :
  (forall x, p x = true -> key x = key c) ->
  ~ In (key c) (map key rs) ->
  filter p (rs ++ [c]) = filter p [c].
Proof.
  intros Hp Hfresh. rewrite filter_app.
  replace (filter p rs) with (@nil R); [reflexivity|].
  symmetry. induction rs as [|x rs IH]; simpl; [reflexivity|].
  destruct (p x) eqn:E.
  - exfalso. apply Hfresh. simpl. left. now apply Hp.
  - apply IH. intros H. apply Hfresh. now right.
Qed.

Lemma negb_filter_snoc_fresh (R : Type) (key : R -> string) (p : R -> bool)
    (rs : list R) (c : R) :
  (forall x, p x = true -> key x = key c) ->
  ~ In (key c) (map key rs) ->
  filter (fun x => negb (p x)) (rs ++ [c]) = (rs ++ filter (fun x => negb (p x)) [c])%list.
Proof.
  intros Hp Hfresh. rewrite filter_app. f_equal.
  induction rs as [|x rs IH]; simpl; [reflexivity|].
  destruct (p x) eqn:E.
  - exfalso. apply Hfresh. simpl. left. now apply Hp.
  - simpl. f_equal. apply IH. intros H. apply Hfresh. now right.
Qed.

Lemma map_snoc_fresh (R : Type) (key : R -> string) (p : R -> bool) (g : R -> R)
    (rs : list R) (c : R) :
  (forall x, p x = true -> key x = key c) ->
  ~ In (key c) (map key rs) ->
  map (fun x => if p x then g x else x) (rs ++ [c])
  = (rs ++ [if p c then g c else c])%list.
Proof.
  intros Hp Hfresh. rewrite map_app. simpl. f_equal.
  induction rs as [|x rs IH]; simpl; [reflexivity|].
  destruct (p x) eqn:E.
  - exfalso. apply Hfresh. simpl. left. now apply Hp.
  - f_equal. apply IH. intros H. apply Hfresh. now right.
Qed.

(** X13. Deleting a caption right after creating it undoes the creation:
    when [createMemeCaption] succeeded with a non-empty generated id,
    [deleteMemeCaption] by the same caller on the returned caption's id and
    idea succeeds, and the store is again exactly the store before the
    creation. *)
Theorem createMemeCaption_then_delete_restores (input : CreateMemeCaption.input)
    (context : ActionAPIContext) (rt rt' : Runtime) (w w1 : World) (u : App.User)
    (r : Envelope (option MemeCaptions.row)) :
  caller context = Some u ->
  randomUUID rt <> "" ->
  createMemeCaption input context rt w = (inr r, w1) ->
  exists c w2,
    data r = Some c
    /\ deleteMemeCaption {| DeleteMemeCaption.id := MemeCaptions.id c;
                            DeleteMemeCaption.memeIdeaId := MemeCaptions.memeIdeaId c |}
         context rt' w1
       = (inr {| success := true; data := tt |}, w2)
    /\ store w2 = store w.
Proof.
  intros Hu Huuid H.
  destruct (createMemeCaption_success input context rt w w1 u r Hu H)
    as (Hidea & (idea & Hfound) & -> & -> & Hfresh).
  set (c := new_caption input rt) in *.
  set (d := {| DeleteMemeCaption.id := MemeCaptions.id c;
               DeleteMemeCaption.memeIdeaId := MemeCaptions.memeIdeaId c |}).
  assert (Hok : accepts DeleteMemeCaption.schema d = true)
    by (apply accepts_deleteMemeCaption; split; assumption).
  assert (Hkey : forall x, addressed d x = true -> MemeCaptions.id x = MemeCaptions.id c).
  { intros x Hx. unfold addressed in Hx. apply andb_true_iff in Hx.
    now apply String.eqb_eq. }
  assert (Hc : addressed d c = true)
    by (unfold addressed, d; simpl; now rewrite !String.eqb_refl).
  exists c. eexists. split; [reflexivity|].
  rewrite (deleteMemeCaption_eval d context rt' _ u Hu Hok).
  cbn [store journal put MemeCaptionsT memeIdeas memeCaptions memeTemplates
       DeleteMemeCaption.memeIdeaId d].
  unfold owned_idea in Hfound.
  change (MemeCaptions.memeIdeaId c) with (CreateMemeCaption.memeIdeaId input).
  rewrite Hfound.
  rewrite (filter_snoc_fresh _ MemeCaptions.id (addressed d) _ c Hkey Hfresh).
  rewrite (negb_filter_snoc_fresh _ MemeCaptions.id (addressed d) _ c Hkey Hfresh).
  simpl. rewrite Hc. simpl. rewrite app_nil_r.
  split; [reflexivity|]. simpl. now destruct (store w).
Qed.

Lemma createMemeCaption_then_delete_restores_witness :
  exists r w1,
    createMemeCaption (caption_input "i1" (Some "x")) (signed_in alice) (rt_of "c-9")
      captions_world = (inr r, w1)
    /\ exists c w2,
         data r = Some c
         /\ deleteMemeCaption
              {| DeleteMemeCaption.id := MemeCaptions.id c;
                 DeleteMemeCaption.memeIdeaId := MemeCaptions.memeIdeaId c |}
              (signed_in alice) rt0 w1
            = (inr {| success := true; data := tt |}, w2)
         /\ store w2 = store captions_world.
Proof.
  eexists. eexists. split; [vm_compute; reflexivity|].
  exact (createMemeCaption_then_delete_restores (caption_input "i1" (Some "x"))
           (signed_in alice) (rt_of "c-9") rt0 captions_world _ alice _ eq_refl
           ltac:(discriminate) eq_refl).
Defined.

(** X14. A caption can be updated right after its creation, and the update
    rewrites it in place: when [createMemeCaption] succeeded with a
    non-empty generated id, a well-formed [updateMemeCaption] by the same
    caller on the returned caption's id and idea succeeds and returns the
    created caption with every field present in the request replaced and
    every other column (id, idea, creation time, and the text fields and
    flags the request leaves out) as created; in the store the new caption
    is replaced by the returned one and nothing else changes. *)
Theorem createMemeCaption_then_update (input : CreateMemeCaption.input)
    (patch : UpdateMemeCaption.input)
    (context : ActionAPIContext) (rt rt' : Runtime) (w w1 : World) (u : App.User)
    (r : Envelope (option MemeCaptions.row)) :
  caller context = Some u ->
  randomUUID rt <> "" ->
  createMemeCaption input context rt w = (inr r, w1) ->
  UpdateMemeCaption.id patch = randomUUID rt ->
  UpdateMemeCaption.memeIdeaId patch = CreateMemeCaption.memeIdeaId input ->
  UpdateMemeCaption.refinement patch = true ->
  exists c after w2,
    data r = Some c
    /\ updateMemeCaption patch context rt' w1
       = (inr {| success := true; data := Some after |}, w2)
    /\ store w2 = {| memeTemplates := memeTemplates (store w);
                     memeIdeas := memeIdeas (store w);
                     memeCaptions := memeCaptions (store w) ++ [after] |}
    /\ MemeCaptions.id after = randomUUID rt
    /\ MemeCaptions.memeIdeaId after = CreateMemeCaption.memeIdeaId input
    /\ MemeCaptions.createdAt after = now rt
    /\ MemeCaptions.variantLabel after
       = match UpdateMemeCaption.variantLabel patch with
         | Some v => Some v
         | None => CreateMemeCaption.variantLabel input
         end
    /\ MemeCaptions.topText after
       = match UpdateMemeCaption.topText patch with
         | Some v => Some v
         | None => CreateMemeCaption.topText input
         end
    /\ MemeCaptions.bottomText after
       = match UpdateMemeCaption.bottomText patch with
         | Some v => Some v
         | None => CreateMemeCaption.bottomText input
         end
    /\ MemeCaptions.extraText after
       = match UpdateMemeCaption.extraText patch with
         | Some v => Some v
         | None => CreateMemeCaption.extraText input
         end
    /\ MemeCaptions.isFavorite after
       = match UpdateMemeCaption.isFavorite patch with
         | Some v => v
         | None => match CreateMemeCaption.isFavorite input with
                   | Some b => b
                   | None => false
                   end
         end
    /\ MemeCaptions.isUsed after
       = match UpdateMemeCaption.isUsed patch with
         | Some v => v
         | None => match CreateMemeCaption.isUsed input with
                   | Some b => b
                   | None => false
                   end
         end.
Proof.
  intros Hu Huuid H Hpid Hpidea Href.
  destruct (createMemeCaption_success input context rt w w1 u r Hu H)
    as (Hidea & (idea & Hfound) & -> & -> & Hfresh).
  set (c := new_caption input rt) in *.
  assert (Hok : accepts UpdateMemeCaption.schema patch = true).
  { apply accepts_updateMemeCaption. rewrite Hpid, Hpidea. now repeat split. }
  assert (Hkey1 : forall x, targeted patch x = true ->
                    MemeCaptions.id x = MemeCaptions.id c).
  { intros x Hx. unfold targeted in Hx. apply andb_true_iff in Hx.
    destruct Hx as [Hx _]. apply String.eqb_eq in Hx. now rewrite Hx. }
  assert (Hkey2 : forall x, (MemeCaptions.id x =? UpdateMemeCaption.id patch) = true ->
                    MemeCaptions.id x = MemeCaptions.id c).
  { intros x Hx. apply String.eqb_eq in Hx. now rewrite Hx. }
  assert (Hc1 : targeted patch c = true).
  { unfold targeted. rewrite Hpid, Hpidea. simpl. now rewrite !String.eqb_refl. }
  assert (Hc2 : (MemeCaptions.id c =? UpdateMemeCaption.id patch) = true).
  { rewrite Hpid. simpl. apply String.eqb_refl. }
  exists c, (caption_set patch c). eexists. split; [reflexivity|].
  rewrite (updateMemeCaption_eval patch context rt' _ u Hu Hok).
  cbn [store journal put MemeCaptionsT memeIdeas memeCaptions memeTemplates].
  rewrite Hpidea, Hfound.
  rewrite (filter_snoc_fresh _ MemeCaptions.id (targeted patch) _ c Hkey1 Hfresh).
  simpl filter at 1. rewrite Hc1. simpl first at 1. cbv iota.
  rewrite (filter_snoc_fresh _ MemeCaptions.id
             (fun x => MemeCaptions.id x =? UpdateMemeCaption.id patch) _ c
             Hkey2 Hfresh).
  rewrite (map_snoc_fresh _ MemeCaptions.id
             (fun x => MemeCaptions.id x =? UpdateMemeCaption.id patch)
             (caption_set patch) _ c Hkey2 Hfresh).
  simpl filter. rewrite Hc2. simpl.
  unfold c in Hc2. simpl in Hc2. rewrite ?Hc2. simpl.
  repeat split.
Qed.

Lemma createMemeCaption_then_update_witness :
  exists r w1,
    createMemeCaption (caption_input "i1" (Some "x")) (signed_in alice) (rt_of "c-9")
      captions_world = (inr r, w1)
    /\ exists after w2,
         updateMemeCaption (mark_favorite "c-9" "i1") (signed_in alice) rt0 w1
         = (inr {| success := true; data := Some after |}, w2)
         /\ MemeCaptions.topText after = Some "x"
         /\ MemeCaptions.extraText after = None
         /\ MemeCaptions.isFavorite after = true.
Proof.
  eexists. eexists. split; [vm_compute; reflexivity|].
  destruct (createMemeCaption_then_update (caption_input "i1" (Some "x"))
              (mark_favorite "c-9" "i1") (signed_in alice) (rt_of "c-9") rt0
              captions_world _ alice _ eq_refl ltac:(discriminate) eq_refl
              eq_refl eq_refl eq_refl)
    as (c & after & w2 & _ & Hupd & _ & _ & _ & _ & _ & Htop & _ & Hextra & Hfav & _).
  exists after, w2. split; [exact Hupd|]. split; [exact Htop|].
  split; [exact Hextra | exact Hfav].
Defined.

(** ** Repeating an update, deleting one caption *)

Lemma caption_set_idempotent (patch : UpdateMemeCaption.input) (c : MemeCaptions.row) :
  caption_set patch (caption_set patch c) = caption_set patch c.
Proof.
  unfold caption_set. simpl.
  destruct (UpdateMemeCaption.variantLabel patch), (UpdateMemeCaption.topText patch),
    (UpdateMemeCaption.bottomText patch), (UpdateMemeCaption.extraText patch),
    (UpdateMemeCaption.isFavorite patch), (UpdateMemeCaption.isUsed patch);
    reflexivity.
Qed.

Lemma filter_map_commute (R : Type) (p : R -> bool) (g : R -> R) (rs : list R) :
  (forall x, p (g x) = p x) -> filter p (map g rs) = map g (filter p rs).
Proof.
  intros H. induction rs as [|x rs IH]; simpl; [reflexivity|].
  rewrite H. destruct (p x); simpl; now rewrite IH.
Qed.

Lemma first_map (R : Type) (g : R -> R) (rs : list R) :
  first (map g rs) = option_map g (first rs).
Proof. destruct rs; reflexivity. Qed.

(** A successful caption action had a caller and a well-formed input. *)
Lemma updateMemeCaption_success_pre (input : UpdateMemeCaption.input)
    (context : ActionAPIContext) (rt : Runtime) (w w' : World)
    (r : Envelope (option MemeCaptions.row)) :
  updateMemeCaption input context rt w = (inr r, w') ->
  exists u, caller context = Some u
            /\ accepts UpdateMemeCaption.schema input = true.
Proof.
  intros H. unfold updateMemeCaption, defineAction in H. unfold accepts.
  destruct (UpdateMemeCaption.schema input) as [issues|i]; [discriminate|].
  destruct (caller context) as [u|] eqn:Hu; [now exists u|].
  unfold updateMemeCaption_handler, bind in H.
  rewrite (requireUser_none _ _ Hu) in H. discriminate.
Qed.

Lemma deleteMemeCaption_success_pre (input : DeleteMemeCaption.input)
    (context : ActionAPIContext) (rt : Runtime) (w w' : World)
    (r : Envelope unit) :
  deleteMemeCaption input context rt w = (inr r, w') ->
  exists u, caller context = Some u
            /\ accepts DeleteMemeCaption.schema input = true.
Proof.
  intros H. unfold deleteMemeCaption, defineAction in H. unfold accepts.
  destruct (DeleteMemeCaption.schema input) as [issues|i]; [discriminate|].
  destruct (caller context) as [u|] eqn:Hu; [now exists u|].
  unfold deleteMemeCaption_handler, bind in H.
  rewrite (requireUser_none _ _ Hu) in H. discriminate.
Qed.

(** X15. [updateMemeCaption] is idempotent: sending a successful update
    again, on the store it produced, succeeds with the same response and
    leaves that store as it is. *)
Theorem updateMemeCaption_idempotent (input : UpdateMemeCaption.input)
    (context : ActionAPIContext) (rt rt' : Runtime) (w w1 : World)
    (r : Envelope (option MemeCaptions.row)) :
  updateMemeCaption input context rt w = (inr r, w1) ->
  exists w2, updateMemeCaption input context rt' w1 = (inr r, w2)
             /\ store w2 = store w1.
Proof.
  intros H.
  destruct (updateMemeCaption_success_pre input context rt w w1 r H) as (u & Hu & Hok).
  rewrite (updateMemeCaption_eval input context rt w u Hu Hok) in H.
  destruct (first (filter (owned_idea _ _) (memeIdeas (store w)))) as [idea|] eqn:Hidea;
    [|discriminate].
  destruct (first (filter (targeted input) (memeCaptions (store w)))) as [e|] eqn:He;
    [|discriminate].
  injection H as <- <-.
  set (idm := fun c => MemeCaptions.id c =? UpdateMemeCaption.id input).
  set (g := fun c => if MemeCaptions.id c =? UpdateMemeCaption.id input
                     then caption_set input c else c).
  assert (Hgid : forall x, MemeCaptions.id (g x) = MemeCaptions.id x)
    by (intros x; unfold g; now destruct (_ =? _)).
  assert (Hgidea : forall x, MemeCaptions.memeIdeaId (g x) = MemeCaptions.memeIdeaId x)
    by (intros x; unfold g; now destruct (_ =? _)).
  assert (Hgg : forall x, g (g x) = g x).
  { intros x. unfold g at 1. rewrite Hgid. unfold g.
    destruct (MemeCaptions.id x =? UpdateMemeCaption.id input);
      [apply caption_set_idempotent | reflexivity]. }
  eexists. rewrite (updateMemeCaption_eval input context rt' _ u Hu Hok).
  cbn [store journal put MemeCaptionsT memeIdeas memeCaptions memeTemplates].
  rewrite Hidea.
  rewrite (filter_map_commute _ (targeted input) g)
    by (intros x; unfold targeted; now rewrite Hgid, Hgidea).
  rewrite first_map, He. cbn [option_map].
  fold idm. fold g.
  rewrite (filter_map_commute _ idm g) by (intros x; unfold idm; now rewrite Hgid).
  rewrite !map_map.
  rewrite (map_ext _ _ Hgg).
  rewrite (map_ext_in (fun x => caption_set input (g x)) (caption_set input)).
  - split; reflexivity.
  - intros x Hx. apply filter_In in Hx. destruct Hx as [_ Hx]. unfold g.
    unfold idm in Hx. rewrite Hx. apply caption_set_idempotent.
Qed.

Lemma updateMemeCaption_idempotent_witness :
  exists r w1 w2,
    updateMemeCaption (mark_favorite "c1" "i1") (signed_in alice) rt0 captions_world
    = (inr r, w1)
    /\ updateMemeCaption (mark_favorite "c1" "i1") (signed_in alice) rt0 w1
       = (inr r, w2)
    /\ store w2 = store w1.
Proof.
  eexists. eexists.
  assert (H : updateMemeCaption (mark_favorite "c1" "i1") (signed_in alice) rt0
                captions_world
              = (inr {| success := true;
                        data := Some (caption_of "c1" "i1" (Some "x") true false) |},
                 {| store := {| memeTemplates := [];
                                memeIdeas := [idea_of "i1" "alice"; idea_of "i2" "bob"];
                                memeCaptions :=
                                  [caption_of "c1" "i1" (Some "x") true false;
                                   caption_c2] |};
                    journal := [SELECT TMemeIdeas; SELECT TMemeCaptions;
                                UPDATE TMemeCaptions] |}))
    by reflexivity.
  destruct (updateMemeCaption_idempotent (mark_favorite "c1" "i1") (signed_in alice)
              rt0 rt0 captions_world _ _ H) as (w2 & H2 & Hs).
  exists w2. split; [exact H|]. split; [exact H2 | exact Hs].
Defined.

Lemma NoDup_key_split (R : Type) (key : R -> string) (l1 l2 : list R) (c x : R) :
  NoDup (map key (l1 ++ c :: l2)) -> In x (l1 ++ l2) -> key x <> key c.
Proof.
  intros ND Hx E. rewrite map_app in ND. simpl in ND.
  apply NoDup_remove_2 in ND. apply ND. rewrite <- map_app, <- E.
  now apply in_map.
Qed.

(** X16. On a store with unique caption ids a successful
    [deleteMemeCaption] removes exactly one row, the caption that carries
    the id and the idea of the request; every other caption keeps its place
    and its content, and the templates and the ideas are untouched. *)
Theorem deleteMemeCaption_removes_exactly_one (input : DeleteMemeCaption.input)
    (context : ActionAPIContext) (rt : Runtime) (w w' : World) (r : Envelope unit) :
  pk_unique MemeCaptionsT (store w) ->
  deleteMemeCaption input context rt w = (inr r, w') ->
  exists c l1 l2,
    memeCaptions (store w) = (l1 ++ c :: l2)%list
    /\ memeCaptions (store w') = (l1 ++ l2)%list
    /\ MemeCaptions.id c = DeleteMemeCaption.id input
    /\ MemeCaptions.memeIdeaId c = DeleteMemeCaption.memeIdeaId input
    /\ memeIdeas (store w') = memeIdeas (store w)
    /\ memeTemplates (store w') = memeTemplates (store w).
Proof.
  intros ND H.
  destruct (deleteMemeCaption_success_pre input context rt w w' r H) as (u & Hu & Hok).
  rewrite (deleteMemeCaption_eval input context rt w u Hu Hok) in H.
  destruct (first _) as [idea|]; [|discriminate].
  destruct (length _ =? 0)%nat eqn:E in H; [discriminate|].
  injection H as _ <-. simpl.
  destruct (filter (addressed input) (memeCaptions (store w))) as [|c l] eqn:F;
    [discriminate|].
  assert (Hc : In c (filter (addressed input) (memeCaptions (store w))))
    by (rewrite F; now left).
  apply filter_In in Hc. destruct Hc as [Hc Ha].
  assert (Hboth : MemeCaptions.id c = DeleteMemeCaption.id input
                  /\ MemeCaptions.memeIdeaId c = DeleteMemeCaption.memeIdeaId input).
  { unfold addressed in Ha. apply andb_true_iff in Ha.
    now rewrite !String.eqb_eq in Ha. }
  destruct (in_split _ _ Hc) as (l1 & l2 & Hrows).
  assert (ND' : NoDup (map MemeCaptions.id (l1 ++ c :: l2)))
    by (rewrite <- Hrows; exact ND).
  exists c, l1, l2. rewrite Hrows in *. clear F E.
  split; [reflexivity|]. split; [|tauto].
  assert (Hothers : forall x, In x (l1 ++ l2) -> addressed input x = false).
  { intros x Hx. destruct (addressed input x) eqn:Hax; [|reflexivity].
    exfalso. apply (NoDup_key_split _ MemeCaptions.id l1 l2 c x ND' Hx).
    unfold addressed in Hax. apply andb_true_iff in Hax.
    destruct Hax as [Hax _]. apply String.eqb_eq in Hax.
    destruct Hboth as [Hid _]. congruence. }
  rewrite filter_app. simpl. rewrite Ha. simpl.
  rewrite <- filter_app. apply filter_none_id. exact Hothers.
Qed.

Lemma deleteMemeCaption_removes_exactly_one_witness :
  exists r w',
    deleteMemeCaption (delete_input "c1" "i1") (signed_in alice) rt0 captions_world
    = (inr r, w')
    /\ exists c l1 l2,
         memeCaptions (store captions_world) = (l1 ++ c :: l2)%list
         /\ memeCaptions (store w') = (l1 ++ l2)%list
         /\ MemeCaptions.id c = "c1".
Proof.
  eexists. eexists. split; [vm_compute; reflexivity|].
  destruct (deleteMemeCaption_removes_exactly_one (delete_input "c1" "i1")
              (signed_in alice) rt0 captions_world _ _ ltac:(solve_nodup) eq_refl)
    as (c & l1 & l2 & H1 & H2 & H3 & _).
  exists c, l1, l2. split; [exact H1|]. split; [exact H2 | exact H3].
Defined.

(** ** A template from creation to its use in an idea *)

(** X17. A template created by a user can be referenced in
    [createMemeIdea] by that user only: on a store with unique template
    ids, after a successful [createTemplate] with a non-empty generated id,
    a [createMemeIdea] that names the new template ends in FORBIDDEN for
    every other caller (the creator's id being non-empty), with no idea
    written; for the creator, with a fresh idea id, it succeeds and appends
    an idea that refers to the template. *)
Theorem createTemplate_then_createMemeIdea (input : CreateTemplate.input)
    (context : ActionAPIContext) (rt : Runtime) (w w1 : World) (u : App.User)
    (r : Envelope (option MemeTemplates.row)) :
  caller context = Some u ->
  pk_unique MemeTemplatesT (store w) ->
  randomUUID rt <> "" ->
  createTemplate input context rt w = (inr r, w1) ->
  forall (request : CreateMemeIdea.input) (context' : ActionAPIContext)
         (rt' : Runtime) (u' : App.User),
    caller context' = Some u' ->
    CreateMemeIdea.templateId request = Some (randomUUID rt) ->
    (App.id u <> "" -> App.id u' <> App.id u ->
     createMemeIdea request context' rt' w1
     = (inl (ActionError FORBIDDEN "You do not have access to this template."),
        after_read (SELECT TMemeTemplates) w1))
    /\ (App.id u' = App.id u ->
        ~ In (randomUUID rt') (map MemeIdeas.id (memeIdeas (store w))) ->
        exists i w2,
          createMemeIdea request context' rt' w1
          = (inr {| success := true; data := Some i |}, w2)
          /\ MemeIdeas.templateId i = Some (randomUUID rt)
          /\ MemeIdeas.userId i = App.id u'
          /\ memeIdeas (store w2) = (memeIdeas (store w) ++ [i])%list).
Proof.
  intros Hu ND Huuid H request context' rt' u' Hu' Htid.
  destruct (createTemplate_success input context rt w w1 u r Hu H)
    as (-> & -> & Hfresh).
  set (w1 := {| store := put MemeTemplatesT
                           (memeTemplates (store w) ++ [new_template input u rt])
                           (store w);
                journal := journal w ++ [INSERT TMemeTemplates] |}).
  assert (ND' : pk_unique MemeTemplatesT (store w1)).
  { unfold pk_unique. simpl. now apply NoDup_map_snoc. }
  assert (Hin : In (new_template input u rt) (memeTemplates (store w1))).
  { simpl. apply in_or_app. right. now left. }
  destruct (ensureTemplateAccessible_by_key (randomUUID rt) (App.id u') w1 ND')
    as (_ & HFB & HOK & Hsnd).
  rewrite (createMemeIdea_gate request context' rt' w1 u' (randomUUID rt)
             Hu' Htid Huuid).
  destruct (ensureTemplateAccessible (randomUUID rt) (App.id u') w1) as [res w'] eqn:E.
  simpl in HFB, HOK, Hsnd. subst w'.
  split.
  - intros Hne Hother.
    rewrite (HFB (new_template input u rt) (App.id u) Hin eq_refl eq_refl Hne);
      [reflexivity|].
    intros E'. apply Hother. now symmetry.
  - intros Hsame Hfresh'.
    rewrite (HOK (new_template input u rt) Hin eq_refl).
    2:{ right. right. simpl. now rewrite Hsame. }
    exists (new_idea request u' rt'). eexists.
    rewrite (db_insert_fresh _ MemeIdeasT (new_idea request u' rt')
               (after_read (SELECT TMemeTemplates) w1) Hfresh').
    + split; [reflexivity|]. simpl. now repeat split.
    + apply new_idea_reference. rewrite Htid.
      now exists (new_template input u rt).
Qed.

Lemma createTemplate_then_createMemeIdea_witness :
  exists r w1,
    createTemplate (template_input "Drake") (signed_in alice) (rt_of "t-1")
      empty_world = (inr r, w1)
    /\ createMemeIdea (idea_input (Some "t-1")) (signed_in bob) (rt_of "i-2") w1
       = (inl (ActionError FORBIDDEN "You do not have access to this template."),
          after_read (SELECT TMemeTemplates) w1).
Proof.
  eexists. eexists. split; [vm_compute; reflexivity|].
  apply (proj1 (createTemplate_then_createMemeIdea (template_input "Drake")
                  (signed_in alice) (rt_of "t-1") empty_world _ alice _ eq_refl
                  ltac:(solve_nodup) ltac:(discriminate) eq_refl
                  (idea_input (Some "t-1")) (signed_in bob) (rt_of "i-2") bob
                  eq_refl eq_refl)); discriminate.
Defined.

(** ** A caption from creation to the listing *)

(** X18. A caption just created is listed under its idea: after a
    successful [createMemeCaption], [listMemeCaptions] by the same caller
    for that idea succeeds; the new caption is among the items exactly when
    it passes the filters that are set (favorite if [favoritesOnly], used
    if [usedOnly]), and every item belongs to the requested idea. *)
Theorem createMemeCaption_then_listed (input : CreateMemeCaption.input)
    (raw : ListMemeCaptions.raw)
    (context : ActionAPIContext) (rt rt' : Runtime) (w w1 : World) (u : App.User)
    (r : Envelope (option MemeCaptions.row)) :
  caller context = Some u ->
  createMemeCaption input context rt w = (inr r, w1) ->
  ListMemeCaptions.raw_memeIdeaId raw = CreateMemeCaption.memeIdeaId input ->
  exists c found w2,
    data r = Some c
    /\ listMemeCaptions raw context rt' w1
       = (inr {| success := true;
                 data := {| items := found; total := length found |} |}, w2)
    /\ store w2 = store w1
    /\ (In c found <->
        (nullish (ListMemeCaptions.raw_favoritesOnly raw) false = true ->
         MemeCaptions.isFavorite c = true)
        /\ (nullish (ListMemeCaptions.raw_usedOnly raw) false = true ->
            MemeCaptions.isUsed c = true))
    /\ (forall x, In x found ->
          MemeCaptions.memeIdeaId x = CreateMemeCaption.memeIdeaId input).
Proof.
  intros Hu H Hraw.
  destruct (createMemeCaption_success input context rt w w1 u r Hu H)
    as (Hidea & (idea & Hfound) & -> & -> & Hfresh).
  set (c := new_caption input rt) in *.
  assert (Hok : accepts ListMemeCaptions.schema raw = true).
  { destruct (accepts ListMemeCaptions.schema raw) eqn:E; [reflexivity|].
    apply accepts_listMemeCaptions in E. congruence. }
  exists c. eexists. eexists. split; [reflexivity|].
  rewrite (listMemeCaptions_eval raw context rt' _ u Hu Hok).
  cbn [store journal put MemeCaptionsT memeIdeas memeCaptions memeTemplates].
  unfold owned_idea in Hfound. rewrite Hraw, Hfound.
  split; [reflexivity|]. split; [reflexivity|]. split.
  - rewrite filter_In, !andb_true_iff, String.eqb_eq.
    assert (Hin : In c (memeCaptions (store w) ++ [c]))
      by (apply in_or_app; right; now left).
    destruct (nullish (ListMemeCaptions.raw_favoritesOnly raw) false),
      (nullish (ListMemeCaptions.raw_usedOnly raw) false),
      (MemeCaptions.isFavorite c), (MemeCaptions.isUsed c); simpl;
      intuition congruence.
  - intros x Hx. apply filter_In in Hx. destruct Hx as [_ Hx].
    rewrite !andb_true_iff, String.eqb_eq in Hx. tauto.
Qed.

Lemma createMemeCaption_then_listed_witness :
  exists r w1,
    createMemeCaption (caption_input "i1" (Some "x")) (signed_in alice) (rt_of "c-9")
      captions_world = (inr r, w1)
    /\ exists c found w2,
         data r = Some c
         /\ listMemeCaptions (list_input "i1" (Some true) None) (signed_in alice)
              rt0 w1
            = (inr {| success := true;
                      data := {| items := found; total := length found |} |}, w2)
         /\ ~ In c found.
Proof.
  eexists. eexists. split; [vm_compute; reflexivity|].
  destruct (createMemeCaption_then_listed (caption_input "i1" (Some "x"))
              (list_input "i1" (Some true) None) (signed_in alice) (rt_of "c-9") rt0
              captions_world _ alice _ eq_refl eq_refl eq_refl)
    as (c & found & w2 & Hdata & Hlist & _ & Hiff & _).
  exists c, found, w2. split; [exact Hdata|]. split; [exact Hlist|].
  intros Hin. apply Hiff in Hin. destruct Hin as [Hfav _].
  injection Hdata as <-. specialize (Hfav eq_refl). discriminate.
Defined.
